(** * Ideal labels and conjugation tables of [lmfdb.hilbert_modular_forms.hilbert_field]

    A shallow embedding of [findvar], [str2ideal], [niceideals],
    [conjideals] and of the class [HilbertNumberField] (its constructor, its
    generator [_iter_ideals] and its four lookup methods), followed by the
    properties proved about them.

    The number field arithmetic comes from Sage and is not part of the module:
    it is taken as the parameters of [Section Field].  The Python side is
    modelled as written: exceptions are an error monad, the generator is the
    trace of what it yields together with the way it ends, the dictionaries
    are finite maps, and the inner lists [[hnf, idl, label]] that
    [conjideals] shares between its copies live in an explicit store. *)

From Stdlib Require Import ZArith List String Ascii Bool Lia Permutation.
From Stdlib Require Import DecimalString DecimalZ.
From stdpp Require Import base option list gmap strings functions sorting.

Local Open Scope Z_scope.

(** ** Python exceptions

    [EncodeError] stands for the [UnicodeError] that [c.encode()] raises
    on a character outside ASCII. *)

Inductive exn : Type :=
  | AssertionError
  | IndexError
  | TypeError
  | AttributeError
  | KeyError
  | EncodeError.

Inductive res (A : Type) : Type :=
  | Ok (a : A)
  | Raise (e : exn).
Arguments Ok {A} a.
Arguments Raise {A} e.

Global Instance res_ret : MRet res := fun A a => Ok a.
Global Instance res_bind : MBind res := fun A B k m =>
  match m with
  | Ok a => k a
  | Raise e => Raise e
  end.

(** [assert c] *)
Definition py_assert (c : bool) : res unit :=
  if c then Ok tt else Raise AssertionError.

(** [L[i]] on a Python list *)
Definition getitem {A : Type} (L : list A) (i : nat) : res A :=
  match nth_error L i with
  | Some a => Ok a
  | None => Raise IndexError
  end.

(** ** String operations used by [str2ideal] *)

(** [s[:-1]] *)
Fixpoint drop_last (s : string) : string :=
  match s with
  | EmptyString => EmptyString
  | String c EmptyString => EmptyString
  | String c s' => String c (drop_last s')
  end.

(** [s[1:-1]] *)
Definition slice_1_m1 (s : string) : string :=
  drop_last (match s with EmptyString => EmptyString | String _ s' => s' end).

(** [s.replace(' ','')] *)
Fixpoint remove_spaces (s : string) : string :=
  match s with
  | EmptyString => EmptyString
  | String c s' =>
      if Ascii.eqb c " "%char then remove_spaces s'
      else String c (remove_spaces s')
  end.

(** [s.split(',')]: never empty, [''.split(',') == ['']]. *)
Fixpoint split_comma (s : string) : list string :=
  match s with
  | EmptyString => [EmptyString]
  | String c s' =>
      if Ascii.eqb c ","%char then EmptyString :: split_comma s'
      else match split_comma s' with
           | t :: ts => String c t :: ts
           | [] => [String c EmptyString]
           end
  end.

(** ** Integers

    [ZZ(0)], [ZZ(1)] and what [str2ideal] parses are Sage integers, which
    have a method [str]; the literal [1] that initialises [ilabel] is a
    Python [int], which has none. *)

Inductive pynum : Type :=
  | PyInt (z : Z)
  | SageInteger (z : Z).

(** Decimal notation of an integer, [Integer.str()]. *)
Definition Z_str (z : Z) : string := NilZero.string_of_int (Z.to_int z).

(** [x.str()] *)
Definition number_str (x : pynum) : res string :=
  match x with
  | SageInteger z => Ok (Z_str z)
  | PyInt _ => Raise AttributeError
  end.

(** [x += 1] *)
Definition number_incr (x : pynum) : pynum :=
  match x with
  | PyInt z => PyInt (z + 1)
  | SageInteger z => SageInteger (z + 1)
  end.

(** [N.str() + '.' + k] *)
Definition mk_label (N : Z) (k : string) : string :=
  String.append (Z_str N) (String.append "." k).

(** No character of [s] is a dot. *)
Fixpoint dotless (s : string) : bool :=
  match s with
  | EmptyString => true
  | String c s' => negb (Ascii.eqb c "."%char) && dotless s'
  end.

(** The rank the specification gives to the entry of norm [N] at position
    [i] of a list with the norms [norms]: its 1-based position among the
    entries of that norm, in input order. *)
Definition spec_rank (norms : list Z) (i : nat) (N : Z) : Z :=
  1 + Z.of_nat (length (filter (fun M => M = N) (take i norms))).

(** No character of [s] is a comma. *)
Fixpoint commaless (s : string) : bool :=
  match s with
  | EmptyString => true
  | String c s' => negb (Ascii.eqb c ","%char) && commaless s'
  end.

(** The number of commas of [s]. *)
Fixpoint count_commas (s : string) : nat :=
  match s with
  | EmptyString => 0%nat
  | String c s' =>
      ((if Ascii.eqb c ","%char then 1 else 0) + count_commas s')%nat
  end.

(** The number of entries equal to [N] at the front of [l], and at its
    end. *)
Fixpoint leading_run (N : Z) (l : list Z) : Z :=
  match l with
  | M :: l' => if M =? N then 1 + leading_run N l' else 0
  | [] => 0
  end.

Definition trailing_run (N : Z) (l : list Z) : Z := leading_run N (reverse l).

(** The position of the entry of norm [N] at index [i] within its run:
    one more than the number of entries of norm [N] that come immediately
    before it, without interruption. *)
Definition run_rank (norms : list Z) (i : nat) (N : Z) : Z :=
  1 + trailing_run N (take i norms).

(** The entry at index [p] has norm [N] and opens a run: it is the first
    of the list, or the entry before it has another norm. *)
Definition run_start (norms : list Z) (p : nat) (N : Z) : Prop :=
  norms !! p = Some N ∧
  match p with
  | O => True
  | S p' => norms !! p' ≠ Some N
  end.

(** ** [findvar]

    [isalpha] is Python's [c.isalpha()].  [c.encode()] goes through the
    default codec of Python 2, which is ASCII: it returns the character as
    a byte string, or raises a [UnicodeError] on a character outside
    ASCII. *)

Inductive findvar_result : Type :=
  | Found (v : string)
  | NotFound
  | UnicodeError.

Definition is_ascii (c : ascii) : bool := (N_of_ascii c <? 128)%N.

(** [for c in x: if c.isalpha(): return c.encode()], on one string; [None]
    when the loop ends. *)
Fixpoint findvar_in (isalpha : ascii -> bool) (x : string)
  : option findvar_result :=
  match x with
  | EmptyString => None
  | String c x' =>
      if isalpha c
      then Some (if is_ascii c then Found (String c EmptyString)
                 else UnicodeError)
      else findvar_in isalpha x'
  end.

Fixpoint findvar (isalpha : ascii -> bool) (L : list string)
  : findvar_result :=
  match L with
  | [] => NotFound
  | x :: L' =>
      match findvar_in isalpha x with
      | Some r => r
      | None => findvar isalpha L'
      end
  end.

(** [self.var = findvar(self.ideals)], when [findvar] returns. *)
Definition var_of (r : findvar_result) : option string :=
  match r with
  | Found v => Some v
  | NotFound | UnicodeError => None
  end.


(** [isalpha] on byte strings in the C locale: the ASCII letters. *)
Definition ascii_isalpha (c : ascii) : bool :=
  let n := N_of_ascii c in
  (((65 <=? n) && (n <=? 90)) || ((97 <=? n) && (n <=? 122)))%N.

(** No character of [x] is alphabetic. *)
Fixpoint alphaless (isalpha : ascii -> bool) (x : string) : bool :=
  match x with
  | EmptyString => true
  | String c x' => negb (isalpha c) && alphaless isalpha x'
  end.

(** ** Stable sorting

    [list.sort()] is stable and only asks [<] of its elements.  It is
    modelled by the stable insertion sort below, which returns what every
    stable sort returns whenever [<] is a strict weak order. *)

Section Sort.
Context {A : Type} (lt : A -> A -> bool).

Fixpoint sort_insert (x : A) (l : list A) : list A :=
  match l with
  | [] => [x]
  | y :: l' => if lt y x then y :: sort_insert x l' else x :: y :: l'
  end.

Fixpoint py_sort (l : list A) : list A :=
  match l with
  | [] => []
  | x :: l' => sort_insert x (py_sort l')
  end.

(** [a <= b] as the sort sees it: not [b < a]. *)
Definition sort_le (a b : A) : Prop := lt b a = false.
End Sort.

(** ** Two concrete fields

    The statements below are exercised in two number fields whose
    arithmetic is small enough to be written out. *)

(** The field [Q(a)] with [a^2 = 2], ring of integers [Z[a]]. *)
Module Zsqrt2.

(** The second generators that occur: [k] and [a + k]. *)
Inductive elt : Type :=
  | Const (k : Z)
  | APlus (k : Z).

(** An ideal, by the Hermite normal form [[x, y], [0, z]] of a basis on
    [(1, a)]: the lattice spanned by [x] and [y + z a]. *)
Definition lattice : Type := (Z * Z * Z)%type.

Definition parse_Z (s : string) : option Z :=
  Z.of_int <$> NilZero.int_of_string s.

Definition parse_elt (s : string) : option elt :=
  match s with
  | String "a" EmptyString => Some (APlus 0)
  | String "a" (String "+" r) => APlus <$> parse_Z r
  | _ => Const <$> parse_Z s
  end.

(** The ideal generated by [n] and [gen].  For [gen = a + k] it is spanned
    by [gcd(n, k^2 - 2)] and [a + k]; for [gen = k] it is [gcd(n, k)] times
    the ring of integers. *)
Definition mk_ideal (n : Z) (gen : elt) : lattice :=
  match gen with
  | Const k => let g := Z.gcd n k in (g, 0, g)
  | APlus k => let x := Z.gcd n (k * k - 2) in (x, k mod x, 1)
  end.

Definition norm (I : lattice) : Z := let '(x, _, z) := I in x * z.

Definition smallest_integer (I : lattice) : Z := let '(x, _, _) := I in x.

Definition hnf_of (I : lattice) : lattice := I.

Definition eqb (I J : lattice) : bool := bool_decide (I = J).

(** Entry by entry, first difference decides. *)
Definition ltb (I J : lattice) : bool :=
  let '(x, y, z) := I in
  let '(x', y', z') := J in
  (x <? x') || ((x =? x') && ((y <? y') || ((y =? y') && (z <? z')))).

(** The automorphism [a -> -a], on ideals. *)
Definition conj (I : lattice) : lattice :=
  let '(x, y, z) := I in (x, (- y) mod x, z).

(** The ideals of norm at most 7, in the order of the database. *)
Definition ideals7 : list string :=
  ["[1,1,1]"; "[2,2,a]"; "[4,2,2]"; "[7,7,a+3]"; "[7, 7, a+4]"]%string.

(** The same list with the norm of the last ideal misrecorded. *)
Definition ideals7_bad : list string :=
  ["[1,1,1]"; "[2,2,a]"; "[4,2,2]"; "[7,7,a+3]"; "[8,7,a+4]"]%string.

Definition primes7 : list string :=
  ["[2,2,a]"; "[7,7,a+3]"; "[7, 7, a+4]"]%string.

(** The two primes above 7 with the prime above 2 between them: a list that
    is not grouped by norm. *)
Definition ideals_ungrouped : list string :=
  ["[7,7,a+3]"; "[2,2,a]"; "[7,7,a+4]"]%string.

(** A list that names the same prime twice. *)
Definition ideals_twice : list string :=
  ["[7,7,a+3]"; "[7,7,a+3]"]%string.

End Zsqrt2.

(** The cyclic cubic field [Q(b)] with [b^3 + b^2 - 2 b - 1 = 0], in which
    13 splits into the three primes [(13, b - r)], [r] a root of the
    polynomial modulo 13: 7, 8 or 10. *)
Module Cubic13.

(** A prime above 13, by its root. *)
Definition root : Type := Z.

(** The normal form of [(13, b - r)] on the basis [(1, b, b^2)] has the
    columns [(13,0,0)], [(-r mod 13, 1, 0)], [(-r^2 mod 13, 0, 1)]; its
    entry [-r mod 13] tells the three primes apart and orders them. *)
Definition hnf_entry (r : root) : Z := (- r) mod 13.

(** The automorphism [b -> b^2 - 2] maps [(13, b - r)] to the prime whose
    root [r'] has [r'^2 - 2 = r]: it maps 7 to 10, 8 to 7 and 10 to 8. *)
Definition sigma (r : root) : root := ((r * r - 2) * (r * r - 2) - 2) mod 13.

End Cubic13.

(** ** The module, over the arithmetic of a number field *)

Section Field.
(** Ideals of the field, compared by Sage's [==], and field elements. *)
Context {Ideal : Type} `{Countable Ideal}.
Context {FieldElt : Type}.
(** The value of [pari_hnf().python()], with its [==] and [<]. *)
Context {HNF : Type}.
Variable hnf_eqb : HNF -> HNF -> bool.
Variable hnf_ltb : HNF -> HNF -> bool.
(** [<] on ideals, reached by a list comparison whose first items agree. *)
Variable idl_ltb : Ideal -> Ideal -> bool.

(** Python's [c.isalpha()], as [findvar] asks it. *)
Variable isalpha : ascii -> bool.

(** [ZZ(s)] and [F(s.encode())]; [None] when Sage rejects the string. *)
Variable ZZ : string -> option Z.
Variable F_of_string : string -> option FieldElt.
(** [F.ideal(n,gen)], [idl.norm()], [idl.smallest_integer()],
    [idl.pari_hnf().python()]. *)
Variable F_ideal : Z -> FieldElt -> Ideal.
Variable idl_norm : Ideal -> Z.
Variable smallest_integer : Ideal -> Z.
Variable pari_hnf : Ideal -> HNF.

Definition ZZ_of_string (s : string) : res Z :=
  match ZZ s with
  | Some z => Ok z
  | None => Raise TypeError
  end.

Definition str2fieldelt (strg : string) : res FieldElt :=
  match F_of_string strg with
  | Some x => Ok x
  | None => Raise TypeError
  end.

Definition str2ideal (strg : string) : res (Z * Z * Ideal * FieldElt) :=
  let idlstr := split_comma (remove_spaces (slice_1_m1 strg)) in
  s0 ← getitem idlstr 0 ;
  N ← ZZ_of_string s0 ;
  s1 ← getitem idlstr 1 ;
  n ← ZZ_of_string s1 ;
  s2 ← getitem idlstr 2 ;
  gen ← str2fieldelt s2 ;
  let idl := F_ideal n gen in
  Ok (N, n, idl, gen).

(** The inner list [[hnf, idl, label]] built by [niceideals]. *)
Record Entry : Type := mkEntry {
  e_hnf : HNF;
  e_idl : Ideal;
  e_label : string
}.

(** The loop of [niceideals], from the state [(ilabel, norm)]; the result
    is what the remaining iterations append to [nideals]. *)
Fixpoint niceideals_loop (ideals : list string) (ilabel : pynum) (norm : Z)
  : res (list Entry) :=
  match ideals with
  | [] => Ok []
  | s :: rest =>
      '(N, n, idl, _) ← str2ideal s ;
      _ ← py_assert ((idl_norm idl =? N) && (smallest_integer idl =? n)) ;
      let '(ilabel, norm) :=
        if negb (N =? norm) then (SageInteger 1, N) else (ilabel, norm) in
      k ← number_str ilabel ;
      let label := mk_label N k in
      let hnf := pari_hnf idl in
      nideals ← niceideals_loop rest (number_incr ilabel) norm ;
      Ok (mkEntry hnf idl label :: nideals)
  end.

Definition niceideals (ideals : list string) : res (list Entry) :=
  niceideals_loop ideals (PyInt 1) 0.

(** Python's [<] on two lists [[hnf, idl, label]]: the first position
    where the items differ (by [==]) decides. *)
Definition entry_ltb (a b : Entry) : bool :=
  if negb (hnf_eqb (e_hnf a) (e_hnf b)) then hnf_ltb (e_hnf a) (e_hnf b)
  else if negb (bool_decide (e_idl a = e_idl b))
       then idl_ltb (e_idl a) (e_idl b)
       else String.ltb (e_label a) (e_label b).

(** [conjideals] copies the outer list only ([copy] is shallow), so the
    inner lists are shared between [ideals], [gideals] and the caller's
    argument.  An inner list is a location of a store; an outer list is a
    list of locations. *)
Definition loc : Type := nat.
Definition store : Type := loc -> Entry.

(** [I[0] = h] *)
Definition set_hnf (e : Entry) (h : HNF) : Entry :=
  mkEntry h (e_idl e) (e_label e).

(** [l.sort()] on a list of inner lists *)
Definition sort_by (σ : store) (l : list loc) : list loc :=
  py_sort (fun a b => entry_ltb (σ a) (σ b)) l.

(** [for I in gideals: I[0] = g(I[1]).pari_hnf().python()] *)
Definition conj_images (g : Ideal -> Ideal) (σ : store) (gideals : list loc)
  : store :=
  foldl (fun σ I => <[I := set_hnf (σ I) (pari_hnf (g (e_idl (σ I))))]> σ)
        σ gideals.

(** [for I,J in zip(ideals,gideals): cideals[(J[2],ig)] = I[2]] *)
Definition conj_record (σ : store) (ig : nat) (ideals gideals : list loc)
    (cideals : gmap (string * nat) string) : gmap (string * nat) string :=
  foldl (fun c IJ => <[(e_label (σ (snd IJ)), ig) := e_label (σ (fst IJ))]> c)
        cideals (zip ideals gideals).

(** The body of [for ig,g in enumerate(auts)]. *)
Definition conj_step (ideals : list loc)
    (st : store * gmap (string * nat) string) (ig : nat)
    (g : Ideal -> Ideal) : store * gmap (string * nat) string :=
  let gideals := ideals in
  let σ := conj_images g (fst st) gideals in
  let gideals := sort_by σ gideals in
  (σ, conj_record σ ig ideals gideals (snd st)).

Fixpoint conj_loop (ideals : list loc) (auts : list (Ideal -> Ideal))
    (ig : nat) (st : store * gmap (string * nat) string)
  : store * gmap (string * nat) string :=
  match auts with
  | [] => st
  | g :: auts' => conj_loop ideals auts' (S ig) (conj_step ideals st ig g)
  end.

(** [conjideals(ideals, auts)] run in the store [σ]: the store it leaves
    behind and the dict it returns. *)
Definition conjideals (σ : store) (ideals : list loc)
    (auts : list (Ideal -> Ideal)) : store * gmap (string * nat) string :=
  let ideals := sort_by σ ideals in
  conj_loop ideals auts 0%nat (σ, ∅).

(** The store in which every inner list carries the normal form of the
    image of its ideal under [g]: what the image list is sorted by. *)
Definition image_store (g : Ideal -> Ideal) (σ : store) : store :=
  fun l => set_hnf (σ l) (pari_hnf (g (e_idl (σ l)))).

(** The table read off the unmutated store: one image list per
    automorphism, each sorted on its own and paired with the reference
    list [ref]. *)
Fixpoint conj_table (σ : store) (ref : list loc)
    (auts : list (Ideal -> Ideal)) (ig : nat)
    (cideals : gmap (string * nat) string) : gmap (string * nat) string :=
  match auts with
  | [] => cideals
  | g :: auts' =>
      conj_table σ ref auts' (S ig)
        (conj_record σ ig ref (sort_by (image_store g σ) ref) cideals)
  end.

(** The dict [{'label': label, 'ideal': idl}] that [_iter_ideals] yields. *)
Record Item : Type := mkItem {
  item_label : string;
  item_ideal : Ideal
}.

(** How a generator ends: [StopIteration] is the normal exhaustion (falling
    off the end of the body, or the module's explicit
    [raise StopIteration], which under the Python 2 the module is written
    for ends the generator the same way); [Raised e] is an exception that
    leaves the generator. *)
Inductive gen_end : Type :=
  | StopIteration
  | Raised (e : exn).

(** The loop of [_iter_ideals] from the state [(count, ilabel, norm)]:
    the items yielded from here on, in order, and the way the generator
    ends. *)
Fixpoint _iter_ideals_loop (number : option Z) (ideals : list string)
    (count : Z) (ilabel : pynum) (norm : Z) : list Item * gen_end :=
  match ideals with
  | [] => ([], StopIteration)
  | idlstr :: rest =>
      match str2ideal idlstr with
      | Raise e => ([], Raised e)
      | Ok (N, n, idl, _) =>
          if negb ((idl_norm idl =? N) && (smallest_integer idl =? n))
          then ([], Raised AssertionError)
          else
            let ilabel := if negb (N =? norm) then SageInteger 1 else ilabel in
            let norm := if negb (N =? norm) then N else norm in
            match number_str ilabel with
            | Raise e => ([], Raised e)
            | Ok k =>
                let label := mk_label N k in
                let item := mkItem label idl in
                let ilabel := number_incr ilabel in
                let count := count + 1 in
                if decide (Some count = number) then ([item], StopIteration)
                else
                  let '(items, e) :=
                    _iter_ideals_loop number rest count ilabel norm in
                  (item :: items, e)
            end
      end
  end.

(** The object: the two stored lists, the variable name and the two
    dictionaries. *)
Record HilbertNumberField : Type := mkHNF {
  ideals : list string;
  primes : list string;
  var : option string;
  ideal_dict : gmap string Ideal;
  label_dict : gmap Ideal string
}.

Definition _iter_ideals (self : HilbertNumberField) (primes_flag : bool)
    (number : option Z) : list Item * gen_end :=
  let ideals := if primes_flag then primes self else ideals self in
  _iter_ideals_loop number ideals 0 (PyInt 1) 0.

Definition primes_iter (self : HilbertNumberField) (number : option Z) :=
  _iter_ideals self true number.

Definition ideals_iter (self : HilbertNumberField) (number : option Z) :=
  _iter_ideals self false number.

(** One turn of the [for] loop of [__init__]. *)
Definition init_step (self : HilbertNumberField) (I : Item)
  : HilbertNumberField :=
  mkHNF (ideals self) (primes self) (var self)
        (<[item_label I := item_ideal I]> (ideal_dict self))
        (<[item_ideal I := item_label I]> (label_dict self)).

(** [HilbertNumberField.__init__], from the two lists of the database
    record [Fdata].  [findvar] runs first, on the list of ideals: an
    exception of its [c.encode()] leaves the constructor before anything
    is decoded.  The constructor of the base class [WebNumberField], which
    receives the variable name, is outside the module and is taken to
    return.  An exception leaving the generator leaves the constructor. *)
Definition init (Fdata_ideals Fdata_primes : list string)
  : res HilbertNumberField :=
  match findvar isalpha Fdata_ideals with
  | UnicodeError => Raise EncodeError
  | r =>
      let self := mkHNF Fdata_ideals Fdata_primes (var_of r) ∅ ∅ in
      match ideals_iter self None with
      | (items, StopIteration) => Ok (foldl init_step self items)
      | (_, Raised e) => Raise e
      end
  end.

(** [d[k]] on a dict *)
Definition dict_getitem `{Countable K} {V : Type} (d : gmap K V) (k : K)
  : res V :=
  match d !! k with
  | Some v => Ok v
  | None => Raise KeyError
  end.

(** [try: return d[k]  except KeyError: return None] *)
Definition try_getitem `{Countable K} {V : Type} (d : gmap K V) (k : K)
  : res (option V) :=
  match dict_getitem d k with
  | Ok v => Ok (Some v)
  | Raise KeyError => Ok None
  | Raise e => Raise e
  end.

Definition ideal_label (self : HilbertNumberField) (idl : Ideal)
  : res (option string) :=
  try_getitem (label_dict self) idl.

Definition ideal (self : HilbertNumberField) (lab : string)
  : res (option Ideal) :=
  try_getitem (ideal_dict self) lab.

Definition prime_label (self : HilbertNumberField) (idl : Ideal)
  : res (option string) :=
  ideal_label self idl.

Definition prime (self : HilbertNumberField) (lab : string)
  : res (option Ideal) :=
  ideal self lab.

(** Two stores that hold the same ideals and labels. *)
Definition same_idl_label (σ σ0 : store) : Prop :=
  ∀ l, e_idl (σ l) = e_idl (σ0 l) ∧ e_label (σ l) = e_label (σ0 l).

(** The label counter after the test [if N != norm]. *)
Definition next_ilabel (N norm : Z) (ilabel : pynum) : pynum :=
  if negb (N =? norm) then SageInteger 1 else ilabel.

(** What the statements below say of a serialized ideal. *)

(** The norm field of [s], as [str2ideal] parses it. *)
Definition parsed_norm (s : string) : Z :=
  match str2ideal s with
  | Ok (N, _, _, _) => N
  | Raise _ => 0
  end.

(** The norm and the least positive integer parsed from [s] are those of
    the ideal constructed from it: the condition both loops assert. *)
Definition agrees (s : string) : bool :=
  match str2ideal s with
  | Ok (N, n, idl, _) => (idl_norm idl =? N) && (smallest_integer idl =? n)
  | Raise _ => false
  end.

(** [str2ideal] returns on [s]. *)
Definition decodes (s : string) : bool :=
  match str2ideal s with
  | Ok _ => true
  | Raise _ => false
  end.

(** The first string, if it agrees with its ideal, has a norm field other
    than 0. *)
Definition head_norm_nonzero (strs : list string) : Prop :=
  match strs with
  | s :: _ => agrees s = true → parsed_norm s ≠ 0
  | [] => True
  end.

(** The label and the ideal of an entry of [niceideals], as the dict that
    [_iter_ideals] yields. *)
Definition to_item (e : Entry) : Item := mkItem (e_label e) (e_idl e).

(** ** Facts about the stable sort *)

Section SortFacts.
Context {A : Type} (lt : A -> A -> bool).

Lemma sort_insert_perm (x : A) (l : list A) : sort_insert lt x l ≡ₚ x :: l.
Proof.
  induction l as [|y l IH]; simpl; [done|].
  destruct (lt y x); [|done].
  rewrite IH. apply Permutation_swap.
Qed.

Lemma py_sort_perm (l : list A) : py_sort lt l ≡ₚ l.
Proof.
  induction l as [|x l IH]; simpl; [done|].
  by rewrite sort_insert_perm, IH.
Qed.

Lemma py_sort_length (l : list A) : length (py_sort lt l) = length l.
Proof. by rewrite py_sort_perm. Qed.

Lemma elem_of_py_sort (x : A) (l : list A) : x ∈ py_sort lt l ↔ x ∈ l.
Proof. by rewrite py_sort_perm. Qed.

Lemma sort_insert_ext_in (lt' : A -> A -> bool) (x : A) (l : list A) :
  (∀ y, y ∈ l → lt y x = lt' y x) →
  sort_insert lt x l = sort_insert lt' x l.
Proof.
  induction l as [|y l IH]; intros Hl; simpl; [done|].
  rewrite <- (Hl y) by left.
  destruct (lt y x); [|done].
  f_equal. apply IH. intros z Hz. apply Hl. by right.
Qed.

(** The sort only looks at [<] between members of the list. *)
Lemma py_sort_ext_in (lt' : A -> A -> bool) (l : list A) :
  (∀ a b, a ∈ l → b ∈ l → lt a b = lt' a b) →
  py_sort lt l = py_sort lt' l.
Proof.
  induction l as [|x l IH]; intros Hl; simpl; [done|].
  rewrite <- IH by (intros a b Ha Hb; apply Hl; by right).
  apply sort_insert_ext_in. intros y Hy.
  apply Hl; [right; exact (proj1 (elem_of_py_sort y l) Hy) | left].
Qed.

(** Sorting by a key is sorting the keys. *)
Lemma py_sort_map {B : Type} (f : B -> A) (l : list B) :
  f <$> py_sort (fun a b => lt (f a) (f b)) l = py_sort lt (f <$> l).
Proof.
  induction l as [|x l IH]; csimpl; [done|].
  rewrite <- IH. generalize (py_sort (fun a b => lt (f a) (f b)) l).
  intros s. induction s as [|y s IHs]; csimpl; [done|].
  destruct (lt (f y) (f x)); csimpl; [by rewrite IHs | done].
Qed.

Hypothesis lt_irrefl : ∀ a, lt a a = false.
Hypothesis lt_trans : ∀ a b c, lt a b = true → lt b c = true → lt a c = true.
Hypothesis lt_total : ∀ a b, lt a b = false → lt b a = false → a = b.

Lemma sort_le_trans (a b c : A) :
  sort_le lt a b → sort_le lt b c → sort_le lt a c.
Proof using lt_irrefl lt_trans lt_total.
  unfold sort_le. intros Hab Hbc.
  destruct (lt c a) eqn:Hca; [|done].
  destruct (lt a b) eqn:Hlt.
  - by rewrite (lt_trans c a b Hca Hlt) in Hbc.
  - rewrite (lt_total a b Hlt Hab) in Hca. congruence.
Qed.

Lemma sort_insert_sorted (x : A) (l : list A) :
  StronglySorted (sort_le lt) l → StronglySorted (sort_le lt) (sort_insert lt x l).
Proof using lt_irrefl lt_trans lt_total.
  induction 1 as [|y l Hl IH Hy]; simpl.
  { repeat constructor. }
  destruct (lt y x) eqn:Hyx.
  - constructor; [done|].
    rewrite sort_insert_perm. constructor; [|done].
    unfold sort_le. destruct (lt x y) eqn:Hxy; [|done].
    pose proof (lt_irrefl y) as Hirr.
    by rewrite (lt_trans y x y Hyx Hxy) in Hirr.
  - constructor; [by constructor|].
    constructor; [done|].
    eapply Forall_impl; [exact Hy|].
    intros z Hz. by apply (sort_le_trans x y z).
Qed.

Lemma py_sort_sorted (l : list A) : StronglySorted (sort_le lt) (py_sort lt l).
Proof using lt_irrefl lt_trans lt_total.
  induction l as [|x l IH]; simpl; [constructor|].
  by apply sort_insert_sorted.
Qed.

(** Under a strict total order the sorted list depends on the members
    only, not on the order in which they came. *)
Lemma py_sort_perm_eq (l1 l2 : list A) :
  l1 ≡ₚ l2 → py_sort lt l1 = py_sort lt l2.
Proof using lt_irrefl lt_trans lt_total.
  intros Hp.
  apply (StronglySorted_unique_strong (sort_le lt)); try apply py_sort_sorted.
  - intros a b _ _ Hab Hba. by apply lt_total.
  - by rewrite !py_sort_perm.
Qed.

Lemma py_sort_idemp (l : list A) : py_sort lt (py_sort lt l) = py_sort lt l.
Proof using lt_irrefl lt_trans lt_total.
  rewrite (py_sort_perm_eq (py_sort lt l) l) by apply py_sort_perm. done.
Qed.
End SortFacts.

(** ** Facts about [conjideals] *)

Section ConjFacts.

Lemma NoDup_fmap_inj_on {A B : Type} (f : A -> B) (l : list A) (a b : A) :
  NoDup (f <$> l) → a ∈ l → b ∈ l → f a = f b → a = b.
Proof.
  induction l as [|x l IH]; simpl; intros Hnd Ha Hb Hab.
  { by apply elem_of_nil in Ha. }
  apply NoDup_cons in Hnd as [Hx Hnd].
  apply elem_of_cons in Ha as [->|Ha]; apply elem_of_cons in Hb as [->|Hb];
    [done| | |by apply IH].
  - exfalso. apply Hx. rewrite Hab. by apply list_elem_of_fmap_2.
  - exfalso. apply Hx. rewrite <- Hab. by apply list_elem_of_fmap_2.
Qed.

(** Only position 0 of an inner list is ever assigned. *)
Lemma conj_images_spec (g : Ideal -> Ideal) (gideals : list loc)
    (σ : store) (l : loc) :
  conj_images g σ gideals l =
    if decide (l ∈ gideals) then image_store g σ l else σ l.
Proof.
  unfold conj_images. revert σ.
  induction gideals as [|I rest IH]; intros σ; simpl.
  { destruct (decide (l ∈ [])) as [Hin|Hin]; [by apply elem_of_nil in Hin | done]. }
  rewrite IH. unfold image_store.
  destruct (decide (l = I)) as [->|Hne].
  - rewrite fn_lookup_insert. simpl.
    rewrite (decide_True (P := I ∈ I :: rest)) by left.
    by case_decide.
  - rewrite fn_lookup_insert_ne by done.
    destruct (decide (l ∈ rest)) as [Hin|Hin].
    + rewrite decide_True by (by right). done.
    + rewrite decide_False; [done|].
      intros [?|?]%elem_of_cons; done.
Qed.

Lemma image_store_same (g : Ideal -> Ideal) (σ σ0 : store) (l : loc) :
  same_idl_label σ σ0 → image_store g σ l = image_store g σ0 l.
Proof.
  intros Hs. destruct (Hs l) as [Hi Hl].
  unfold image_store, set_hnf. by rewrite Hi, Hl.
Qed.

Lemma conj_images_same (g : Ideal -> Ideal) (L : list loc) (σ σ0 : store) :
  same_idl_label σ σ0 → same_idl_label (conj_images g σ L) σ0.
Proof.
  intros Hs l. rewrite conj_images_spec.
  case_decide; [|apply Hs]. unfold image_store; simpl. apply Hs.
Qed.

Lemma sort_by_ext (σ σ' : store) (L : list loc) :
  (∀ l, l ∈ L → σ l = σ' l) → sort_by σ L = sort_by σ' L.
Proof.
  intros Hext. apply py_sort_ext_in.
  intros a b Ha Hb. by rewrite (Hext a Ha), (Hext b Hb).
Qed.

Lemma conj_record_same (σ σ0 : store) (ig : nat) (I G : list loc)
    (c : gmap (string * nat) string) :
  same_idl_label σ σ0 → conj_record σ ig I G c = conj_record σ0 ig I G c.
Proof.
  intros Hs. unfold conj_record. revert c.
  induction (zip I G) as [|[a b] z IH]; intros c; simpl; [done|].
  rewrite IH. by rewrite (proj2 (Hs a)), (proj2 (Hs b)).
Qed.

(** The mutation of the shared inner lists does not reach the table:
    the loop returns the table of the unmutated store. *)
Lemma conj_loop_table (σ0 : store) (ref : list loc)
    (auts : list (Ideal -> Ideal)) (ig : nat) (σ : store)
    (c : gmap (string * nat) string) :
  same_idl_label σ σ0 →
  snd (conj_loop ref auts ig (σ, c)) = conj_table σ0 ref auts ig c.
Proof.
  revert ig σ c. induction auts as [|g auts IH]; intros ig σ c Hs; [done|].
  simpl. unfold conj_step; simpl.
  rewrite IH by (by apply conj_images_same). f_equal.
  rewrite (conj_record_same _ σ0) by (by apply conj_images_same). f_equal.
  apply sort_by_ext. intros l Hl.
  rewrite conj_images_spec, decide_True by done.
  by apply image_store_same.
Qed.

Lemma conj_record_lookup_ne (σ : store) (ig ig' : nat) (I G : list loc)
    (c : gmap (string * nat) string) (L : string) :
  ig ≠ ig' → conj_record σ ig I G c !! (L, ig') = c !! (L, ig').
Proof.
  intros Hne. unfold conj_record. revert c.
  induction (zip I G) as [|[a b] z IH]; intros c; simpl; [done|].
  rewrite IH. apply lookup_insert_ne. congruence.
Qed.

Lemma conj_record_lookup_notin (σ : store) (ig : nat) (I G : list loc)
    (c : gmap (string * nat) string) (L : string) :
  L ∉ (fun l => e_label (σ l)) <$> G →
  conj_record σ ig I G c !! (L, ig) = c !! (L, ig).
Proof.
  unfold conj_record. revert G c.
  induction I as [|a I IH]; intros [|b G] c HL; simpl; try done.
  rewrite fmap_cons in HL. apply not_elem_of_cons in HL as [Hb HG].
  rewrite IH by done. apply lookup_insert_ne. congruence.
Qed.

Lemma conj_record_lookup (σ : store) (ig : nat) (ref img : list loc)
    (c : gmap (string * nat) string) (j : nat) (I J : loc) :
  NoDup ((fun l => e_label (σ l)) <$> img) →
  ref !! j = Some I → img !! j = Some J →
  conj_record σ ig ref img c !! (e_label (σ J), ig) = Some (e_label (σ I)).
Proof.
  revert img c j.
  induction ref as [|a ref IH]; intros [|b img] c j Hnd HI HJ; try done.
  rewrite fmap_cons in Hnd. apply NoDup_cons in Hnd as [Hb Hnd].
  destruct j as [|j]; simpl in *.
  - injection HI as ->. injection HJ as ->.
    change (conj_record σ ig ref img
              (<[(e_label (σ J), ig) := e_label (σ I)]> c)
              !! (e_label (σ J), ig) = Some (e_label (σ I))).
    rewrite conj_record_lookup_notin by done. apply lookup_insert_eq.
  - by apply (IH img _ j).
Qed.

Lemma conj_table_lookup_lt (σ : store) (ref : list loc)
    (auts : list (Ideal -> Ideal)) (ig i : nat)
    (c : gmap (string * nat) string) (L : string) :
  (i < ig)%nat → conj_table σ ref auts ig c !! (L, i) = c !! (L, i).
Proof.
  revert ig c. induction auts as [|g auts IH]; intros ig c Hlt; [done|].
  simpl. rewrite IH by lia. apply conj_record_lookup_ne. lia.
Qed.

Lemma conj_table_lookup (σ : store) (ref : list loc)
    (auts : list (Ideal -> Ideal)) (ig k : nat) (g : Ideal -> Ideal)
    (c : gmap (string * nat) string) (j : nat) (I J : loc) :
  NoDup ((fun l => e_label (σ l)) <$> ref) →
  auts !! k = Some g →
  ref !! j = Some I →
  sort_by (image_store g σ) ref !! j = Some J →
  conj_table σ ref auts ig c !! (e_label (σ J), (ig + k)%nat)
    = Some (e_label (σ I)).
Proof.
  intros Hnd. revert ig k c.
  induction auts as [|g' auts IH]; intros ig k c Hk HI HJ; [done|].
  destruct k as [|k]; simpl in *.
  - injection Hk as ->. rewrite Nat.add_0_r.
    rewrite conj_table_lookup_lt by lia.
    apply (conj_record_lookup _ _ _ _ _ j); [|done..].
    unfold sort_by. by rewrite py_sort_perm.
  - replace (ig + S k)%nat with (S ig + k)%nat by lia. by apply IH.
Qed.

(** The pairing of the two sorted lists, read in the returned table. *)
Lemma conjideals_pairs (σ : store) (ideals : list loc)
    (auts : list (Ideal -> Ideal)) (i : nat) (g : Ideal -> Ideal)
    (j : nat) (I J : loc) :
  NoDup ((fun l => e_label (σ l)) <$> ideals) →
  auts !! i = Some g →
  sort_by σ ideals !! j = Some I →
  sort_by (image_store g σ) (sort_by σ ideals) !! j = Some J →
  snd (conjideals σ ideals auts) !! (e_label (σ J), i) = Some (e_label (σ I)).
Proof.
  intros Hnd Hi HI HJ. unfold conjideals.
  rewrite (conj_loop_table σ) by done.
  apply (conj_table_lookup σ _ auts 0 i g ∅ j); [|done..].
  unfold sort_by. by rewrite py_sort_perm.
Qed.

(** What [conjideals] leaves in the store: every inner list of its
    argument carries the normal form of the image of its ideal under the
    last automorphism. *)
Lemma conj_loop_store (ref : list loc) (auts : list (Ideal -> Ideal))
    (ig : nat) (σ : store) (c : gmap (string * nat) string) (l : loc) :
  fst (conj_loop ref auts ig (σ, c)) l =
    match last auts with
    | Some g => if decide (l ∈ ref) then image_store g σ l else σ l
    | None => σ l
    end.
Proof.
  revert ig σ c. induction auts as [|g auts IH]; intros ig σ c; [done|].
  simpl conj_loop. unfold conj_step. simpl fst. rewrite IH.
  rewrite last_cons. destruct (last auts) as [g'|].
  - rewrite conj_images_spec. case_decide; [|done].
    apply image_store_same. apply conj_images_same. by intros l'.
  - apply conj_images_spec.
Qed.

(** C5, as amended.  For every automorphism [g] at index [i] and every
    position [j], the table returned by [conjideals] maps the label of the
    [j]-th entry of the image list (the entries sorted by the normal form
    of their image under [g]), with [i], to the label of the [j]-th entry
    of the reference list (the entries sorted by their own normal form),
    provided that the labels of the entries are pairwise distinct. *)
Theorem conjideals_entry (σ : store) (ideals : list loc)
    (auts : list (Ideal -> Ideal)) (i : nat) (g : Ideal -> Ideal)
    (j : nat) (I J : loc) :
  NoDup ((fun l => e_label (σ l)) <$> ideals) →
  auts !! i = Some g →
  sort_by σ ideals !! j = Some I →
  sort_by (image_store g σ) (sort_by σ ideals) !! j = Some J →
  snd (conjideals σ ideals auts) !! (e_label (σ J), i) = Some (e_label (σ I)).
Proof. apply conjideals_pairs. Qed.

Section ConjOrder.
(** [==] and [<] on normal forms: a decidable equality and a strict total
    order. *)
Hypothesis hnf_eqb_eq : ∀ a b, hnf_eqb a b = true → a = b.
Hypothesis hnf_ltb_irrefl : ∀ a, hnf_ltb a a = false.
Hypothesis hnf_ltb_trans :
  ∀ a b c, hnf_ltb a b = true → hnf_ltb b c = true → hnf_ltb a c = true.
Hypothesis hnf_ltb_total :
  ∀ a b, hnf_ltb a b = false → hnf_ltb b a = false → a = b.

Lemma string_ltb_irrefl (s : string) : String.ltb s s = false.
Proof.
  unfold String.ltb.
  assert (String.compare s s = Eq) as ->; [|done].
  induction s as [|c s IH]; simpl; [done|].
  unfold Ascii.compare. by rewrite N.compare_refl.
Qed.

(** Where equal normal forms only occur on equal entries, the list
    comparison is the comparison of the normal forms. *)
Lemma entry_ltb_by_key (a b : Entry) :
  (e_hnf a = e_hnf b → a = b) →
  entry_ltb a b = hnf_ltb (e_hnf a) (e_hnf b).
Proof using hnf_eqb_eq hnf_ltb_irrefl.
  intros Hinj. unfold entry_ltb.
  destruct (hnf_eqb (e_hnf a) (e_hnf b)) eqn:Heq; simpl; [|done].
  apply hnf_eqb_eq in Heq. rewrite <- (Hinj Heq).
  rewrite bool_decide_eq_true_2 by done. simpl.
  by rewrite string_ltb_irrefl, hnf_ltb_irrefl.
Qed.

Lemma sort_by_keys (σ : store) (L : list loc) :
  NoDup ((fun l => e_hnf (σ l)) <$> L) →
  (fun l => e_hnf (σ l)) <$> sort_by σ L
    = py_sort hnf_ltb ((fun l => e_hnf (σ l)) <$> L).
Proof using hnf_eqb_eq hnf_ltb_irrefl.
  intros Hnd. rewrite <- py_sort_map. f_equal.
  apply py_sort_ext_in. intros a b Ha Hb.
  apply entry_ltb_by_key. intros Hk.
  by rewrite (NoDup_fmap_inj_on _ L a b Hnd Ha Hb Hk).
Qed.


End ConjOrder.

End ConjFacts.

(** ** Facts about labels *)

Section LabelFacts.

Lemma Z_str_parse (z : Z) :
  NilZero.int_of_string (Z_str z) = Some (Z.to_int z).
Proof.
  unfold Z_str. apply NilZero.isi.
  - destruct z as [|p|p]; simpl; try done.
    intros [= Hp]. by apply DecimalPos.Unsigned.to_uint_nonnil in Hp.
  - destruct z as [|p|p]; simpl; try done.
    intros [= Hp]. by apply DecimalPos.Unsigned.to_uint_nonnil in Hp.
Qed.

Lemma Z_str_inj (a b : Z) : Z_str a = Z_str b → a = b.
Proof.
  intros Hab. apply DecimalZ.to_int_inj.
  pose proof (Z_str_parse a) as Ha. rewrite Hab, Z_str_parse in Ha.
  by injection Ha.
Qed.

Lemma dotless_uint (d : Decimal.uint) :
  dotless (NilEmpty.string_of_uint d) = true.
Proof. induction d; simpl; done. Qed.

Lemma dotless_Z_str (z : Z) : dotless (Z_str z) = true.
Proof.
  unfold Z_str.
  destruct (Z.to_int z) as [d|d]; simpl;
    destruct d; simpl; try done; apply dotless_uint.
Qed.

(** A string is cut at its first dot in one way only. *)
Lemma dot_split_inj (a a' b b' : string) :
  dotless a = true → dotless a' = true →
  String.append a (String "." b) = String.append a' (String "." b') →
  a = a' ∧ b = b'.
Proof.
  revert a'. induction a as [|c a IH]; intros [|c' a']; simpl.
  - intros _ _ [= ->]. done.
  - intros _ Hd [= <- _]. done.
  - intros Hd _ [= -> _]. done.
  - intros [_ Ha]%andb_true_iff [_ Ha']%andb_true_iff [= -> Heq].
    destruct (IH a' Ha Ha' Heq) as [-> ->]. done.
Qed.

Lemma mk_label_inj (N N' k k' : Z) :
  mk_label N (Z_str k) = mk_label N' (Z_str k') → N = N' ∧ k = k'.
Proof.
  unfold mk_label. intros Heq.
  apply dot_split_inj in Heq as [HN Hk]; try apply dotless_Z_str.
  split; by apply Z_str_inj.
Qed.

Lemma spec_rank_lt (norms : list Z) (i j : nat) (N : Z) :
  (i < j)%nat → norms !! i = Some N →
  spec_rank norms i N < spec_rank norms j N.
Proof.
  intros Hij Hi. unfold spec_rank.
  assert (take j norms = take i norms ++ N :: take (j - S i) (drop (S i) norms))
    as ->.
  { rewrite <- (take_drop_middle norms i N Hi) at 1.
    assert (length (take i norms) = i) as Hlen.
    { rewrite length_take. apply lookup_lt_Some in Hi. lia. }
    rewrite take_app_ge by lia. rewrite Hlen.
    replace (j - i)%nat with (S (j - S i)) by lia. done. }
  rewrite filter_app, filter_cons_True by done.
  rewrite length_app. simpl. lia.
Qed.

(** Labels given by the rule of the specification are pairwise distinct,
    whatever the order of the norms. *)
Lemma spec_labels_NoDup (norms : list Z) (labels : list string) :
  length labels = length norms →
  (∀ i N, norms !! i = Some N →
     labels !! i = Some (mk_label N (Z_str (spec_rank norms i N)))) →
  NoDup labels.
Proof.
  intros Hlen Hlab. apply NoDup_alt. intros i j L Hi Hj.
  assert (is_Some (norms !! i)) as [N HN].
  { apply lookup_lt_is_Some. rewrite <- Hlen. by eapply lookup_lt_Some. }
  assert (is_Some (norms !! j)) as [M HM].
  { apply lookup_lt_is_Some. rewrite <- Hlen. by eapply lookup_lt_Some. }
  rewrite (Hlab i N HN) in Hi. rewrite (Hlab j M HM) in Hj.
  injection Hi as <-. injection Hj as Heq.
  apply mk_label_inj in Heq as [-> Hr].
  destruct (Nat.lt_trichotomy i j) as [Hlt|[->|Hlt]]; [|done|].
  - pose proof (spec_rank_lt norms i j N Hlt HN). lia.
  - pose proof (spec_rank_lt norms j i N Hlt HM). lia.
Qed.

End LabelFacts.

(** ** Facts about the two labelling loops *)

Section LoopFacts.

(** One turn of the loop of [niceideals]; [norm] is [N] after it. *)
Lemma niceideals_loop_cons (s : string) (rest : list string) (il : pynum)
    (norm N n : Z) (idl : Ideal) (gen : FieldElt) :
  str2ideal s = Ok (N, n, idl, gen) →
  niceideals_loop (s :: rest) il norm =
    if (idl_norm idl =? N) && (smallest_integer idl =? n) then
      match number_str (next_ilabel N norm il) with
      | Ok k =>
          match niceideals_loop rest (number_incr (next_ilabel N norm il)) N with
          | Ok nideals => Ok (mkEntry (pari_hnf idl) idl (mk_label N k) :: nideals)
          | Raise e => Raise e
          end
      | Raise e => Raise e
      end
    else Raise AssertionError.
Proof.
  intros Hs. simpl. rewrite Hs. unfold next_ilabel. simpl.
  destruct ((idl_norm idl =? N) && (smallest_integer idl =? n)); simpl; [|done].
  destruct (Z.eqb_spec N norm) as [->|Hne]; simpl; done.
Qed.

(** One turn of the loop of [_iter_ideals]. *)
Lemma _iter_ideals_loop_cons (number : option Z) (s : string)
    (rest : list string) (count : Z) (il : pynum) (norm N n : Z)
    (idl : Ideal) (gen : FieldElt) :
  str2ideal s = Ok (N, n, idl, gen) →
  _iter_ideals_loop number (s :: rest) count il norm =
    if (idl_norm idl =? N) && (smallest_integer idl =? n) then
      match number_str (next_ilabel N norm il) with
      | Ok k =>
          if decide (Some (count + 1) = number)
          then ([mkItem (mk_label N k) idl], StopIteration)
          else
            (mkItem (mk_label N k) idl ::
               fst (_iter_ideals_loop number rest (count + 1)
                      (number_incr (next_ilabel N norm il)) N),
             snd (_iter_ideals_loop number rest (count + 1)
                    (number_incr (next_ilabel N norm il)) N))
      | Raise e => ([], Raised e)
      end
    else ([], Raised AssertionError).
Proof.
  intros Hs. simpl. rewrite Hs. unfold next_ilabel.
  destruct ((idl_norm idl =? N) && (smallest_integer idl =? n)); simpl; [|done].
  destruct (Z.eqb_spec N norm) as [->|Hne]; simpl.
  - destruct (number_str il); [|done].
    case_decide; [done|]. by destruct (_iter_ideals_loop _ _ _ _ _).
  - case_decide; [done|]. by destruct (_iter_ideals_loop _ _ _ _ _).
Qed.

Lemma str2ideal_cases (s : string) :
  (∃ N n idl gen, str2ideal s = Ok (N, n, idl, gen)) ∨
  (∃ e, str2ideal s = Raise e).
Proof.
  destruct (str2ideal s) as [[[[N n] idl] gen]|e]; [left|right]; eauto.
Qed.

(** With no limit, the generator yields the labels and ideals of the
    entries that [niceideals] builds, and fails where it fails. *)
Lemma _iter_ideals_loop_None (strs : list string) (count : Z) (il : pynum)
    (norm : Z) :
  match niceideals_loop strs il norm with
  | Ok out =>
      _iter_ideals_loop None strs count il norm
        = (to_item <$> out, StopIteration)
  | Raise e => snd (_iter_ideals_loop None strs count il norm) = Raised e
  end.
Proof.
  revert count il norm.
  induction strs as [|s rest IH]; intros count il norm; [done|].
  destruct (str2ideal_cases s) as [(N & n & idl & gen & Hs)|[e He]].
  - rewrite (niceideals_loop_cons _ _ _ _ _ _ _ _ Hs).
    rewrite (_iter_ideals_loop_cons _ _ _ _ _ _ _ _ _ _ Hs).
    destruct ((idl_norm idl =? N) && (smallest_integer idl =? n)); [|done].
    destruct (number_str (next_ilabel N norm il)) as [k|e]; [|done].
    rewrite decide_False by done.
    specialize (IH (count + 1) (number_incr (next_ilabel N norm il)) N).
    destruct (niceideals_loop rest _ N) as [out|e]; simpl.
    + by rewrite IH.
    + done.
  - simpl. by rewrite He.
Qed.

Lemma parsed_norm_Ok (s : string) (N n : Z) (idl : Ideal) (gen : FieldElt) :
  str2ideal s = Ok (N, n, idl, gen) → parsed_norm s = N.
Proof. intros Hs. unfold parsed_norm. by rewrite Hs. Qed.

Lemma spec_rank_0 (norms : list Z) (N : Z) : spec_rank norms 0 N = 1.
Proof. unfold spec_rank. by rewrite take_0. Qed.

Lemma spec_rank_cons (M : Z) (norms : list Z) (i : nat) (N : Z) :
  spec_rank (M :: norms) (S i) N
    = (if M =? N then 1 else 0) + spec_rank norms i N.
Proof.
  unfold spec_rank. simpl. rewrite filter_cons.
  destruct (Z.eqb_spec M N) as [->|Hne].
  - rewrite decide_True by done. simpl length. lia.
  - rewrite decide_False by done. lia.
Qed.

(** What a successful run of [niceideals] puts in its entries. *)
Lemma niceideals_loop_entries (strs : list string) (il : pynum) (norm : Z)
    (out : list Entry) :
  niceideals_loop strs il norm = Ok out →
  Forall2 (fun s e =>
             ∃ n gen, str2ideal s = Ok (parsed_norm s, n, e_idl e, gen) ∧
                      idl_norm (e_idl e) = parsed_norm s ∧
                      smallest_integer (e_idl e) = n ∧
                      e_hnf e = pari_hnf (e_idl e)) strs out.
Proof.
  revert il norm out.
  induction strs as [|s rest IH]; intros il norm out Hrun.
  { injection Hrun as <-. constructor. }
  destruct (str2ideal_cases s) as [(N & n & idl & gen & Hs)|[e He]].
  2: { simpl in Hrun. by rewrite He in Hrun. }
  rewrite (niceideals_loop_cons _ _ _ _ _ _ _ _ Hs) in Hrun.
  destruct (andb _ _) eqn:Hassert; [|done].
  destruct (number_str _) as [k|]; [|done].
  destruct (niceideals_loop rest _ N) as [out'|] eqn:Hrest; [|done].
  injection Hrun as <-. constructor; [|by eapply IH].
  apply andb_true_iff in Hassert as [HN Hn].
  apply Z.eqb_eq in HN, Hn. simpl.
  exists n, gen. by rewrite (parsed_norm_Ok _ _ _ _ _ Hs).
Qed.

(** The running counter is the rank of the specification, on an input
    sorted by ascending norm.  From a state [(k0, norm)] reached inside a
    group, the first [k0 - 1] members of the group came before. *)
Lemma niceideals_loop_ranks (strs : list string) (k0 norm : Z)
    (out : list Entry) :
  niceideals_loop strs (SageInteger k0) norm = Ok out →
  StronglySorted Z.le (parsed_norm <$> strs) →
  k0 = 1 ∨ Forall (fun s => norm ≤ parsed_norm s) strs →
  ∀ i s, strs !! i = Some s →
    ∃ e, out !! i = Some e ∧
         e_label e =
           mk_label (parsed_norm s)
             (Z_str ((if parsed_norm s =? norm then k0 - 1 else 0)
                     + spec_rank (parsed_norm <$> strs) i (parsed_norm s))).
Proof.
  revert k0 norm out.
  induction strs as [|s rest IH]; intros k0 norm out Hrun Hsort Hinv i s' Hi.
  { done. }
  destruct (str2ideal_cases s) as [(N & n & idl & gen & Hs)|[e He]].
  2: { simpl in Hrun. by rewrite He in Hrun. }
  rewrite (niceideals_loop_cons _ _ _ _ _ _ _ _ Hs) in Hrun.
  destruct (andb _ _); [|done].
  assert (next_ilabel N norm (SageInteger k0)
            = SageInteger (if N =? norm then k0 else 1)) as Hnext.
  { unfold next_ilabel. by destruct (N =? norm). }
  rewrite Hnext in Hrun. simpl in Hrun.
  destruct (niceideals_loop rest _ N) as [out'|] eqn:Hrest; [|done].
  injection Hrun as <-.
  rewrite fmap_cons, (parsed_norm_Ok _ _ _ _ _ Hs) in Hsort |- *.
  apply StronglySorted_inv in Hsort as [Hsort HN].
  destruct i as [|i]; simpl in Hi.
  - injection Hi as <-. eexists; split; [done|]. simpl.
    rewrite (parsed_norm_Ok _ _ _ _ _ Hs), spec_rank_0.
    do 2 f_equal. destruct (N =? norm); lia.
  - assert (HNle : Forall (fun s => N ≤ parsed_norm s) rest).
    { by apply (proj1 (Forall_fmap _ _ _)) in HN. }
    destruct (IH _ _ _ Hrest Hsort (or_intror HNle) i s' Hi)
      as (e & He & Hlab).
    exists e. split; [done|]. rewrite Hlab, spec_rank_cons.
    do 2 f_equal.
    assert (N ≤ parsed_norm s') as HNs.
    { rewrite Forall_forall in HNle. apply HNle.
      by eapply list_elem_of_lookup_2. }
    assert (k0 = 1 ∨ norm ≤ N) as Hk.
    { destruct Hinv as [?|Hall]; [by left|right].
      apply Forall_cons in Hall as [Hle _].
      by rewrite (parsed_norm_Ok _ _ _ _ _ Hs) in Hle. }
    destruct (Z.eqb_spec (parsed_norm s') N) as [->|Hne1];
      destruct (Z.eqb_spec N norm) as [->|Hne2];
      repeat match goal with
             | |- context [Z.eqb ?a ?b] => destruct (Z.eqb_spec a b)
             end; lia.
Qed.

(** A run that succeeds never asked a Python [int] for its [str]: it would
    have succeeded from a Sage integer too. *)
Lemma niceideals_loop_PyInt (strs : list string) (z norm : Z)
    (out : list Entry) :
  niceideals_loop strs (PyInt z) norm = Ok out →
  niceideals_loop strs (SageInteger z) norm = Ok out.
Proof.
  destruct strs as [|s rest]; [done|].
  destruct (str2ideal_cases s) as [(N & n & idl & gen & Hs)|[e He]].
  2: { simpl. by rewrite He. }
  rewrite !(niceideals_loop_cons _ _ _ _ _ _ _ _ Hs).
  destruct (andb _ _); [|done].
  unfold next_ilabel. by destruct (negb (N =? norm)).
Qed.

Lemma decodes_inv (s : string) :
  decodes s = true → ∃ N n idl gen, str2ideal s = Ok (N, n, idl, gen).
Proof.
  unfold decodes.
  destruct (str2ideal s) as [[[[N n] idl] gen]|e]; [|done].
  intros _. by exists N, n, idl, gen.
Qed.

Lemma agrees_decodes (s : string) : agrees s = true → decodes s = true.
Proof. unfold agrees, decodes. by destruct (str2ideal s). Qed.

Lemma forallb_agrees_decodes (strs : list string) :
  forallb agrees strs = true → forallb decodes strs = true.
Proof.
  rewrite !forallb_forall. intros Hag s Hs. apply agrees_decodes. by apply Hag.
Qed.


(** On strings that decode, and unless the first of them agrees with its
    ideal at norm field 0 while the counter is still the Python [int], the
    loop of [niceideals] has two outcomes: it returns, or the assertion
    fails; and the second one exactly when some string does not agree with
    its ideal. *)
Lemma niceideals_loop_outcome (strs : list string) (il : pynum) (norm : Z) :
  forallb decodes strs = true →
  (∃ k, il = SageInteger k) ∨ (norm = 0 ∧ head_norm_nonzero strs) →
  if forallb agrees strs
  then ∃ out, niceideals_loop strs il norm = Ok out
  else niceideals_loop strs il norm = Raise AssertionError.
Proof.
  revert il norm.
  induction strs as [|s rest IH]; intros il norm Hdec Hinv; simpl forallb.
  { by exists []. }
  simpl in Hdec. apply andb_true_iff in Hdec as [Hs Hrest].
  apply decodes_inv in Hs as (N & n & idl & gen & Hs).
  rewrite (niceideals_loop_cons _ _ _ _ _ _ _ _ Hs).
  assert (agrees s = (idl_norm idl =? N) && (smallest_integer idl =? n))
    as Hag by (unfold agrees; by rewrite Hs).
  assert (parsed_norm s = N) as HN by (unfold parsed_norm; by rewrite Hs).
  rewrite Hag.
  destruct ((idl_norm idl =? N) && (smallest_integer idl =? n)); simpl; [|done].
  assert (∃ k, next_ilabel N norm il = SageInteger k) as [k Hk].
  { unfold next_ilabel. destruct (Z.eqb_spec N norm) as [->|]; simpl; [|eauto].
    destruct Hinv as [?|[-> Hhead]]; [done|].
    simpl in Hhead. by destruct (Hhead Hag). }
  rewrite Hk. simpl.
  specialize (IH (SageInteger (k + 1)) N Hrest (or_introl (ex_intro _ _ eq_refl))).
  destruct (forallb agrees rest).
  - destruct IH as [out ->]. eauto.
  - by rewrite IH.
Qed.

(** A limit that the full sequence reaches cuts it there, and the
    generator ends as an exhausted one. *)
Lemma _iter_ideals_loop_limit (strs : list string) (count : Z) (il : pynum)
    (norm m : Z) :
  count < m →
  m - count ≤ Z.of_nat (length (fst (_iter_ideals_loop None strs count il norm))) →
  _iter_ideals_loop (Some m) strs count il norm =
    (take (Z.to_nat (m - count))
          (fst (_iter_ideals_loop None strs count il norm)),
     StopIteration).
Proof.
  revert count il norm.
  induction strs as [|s rest IH]; intros count il norm Hlt Hlen.
  { simpl in Hlen. lia. }
  destruct (str2ideal_cases s) as [(N & n & idl & gen & Hs)|[e He]].
  2: { simpl in Hlen. rewrite He in Hlen. simpl in Hlen. lia. }
  rewrite (_iter_ideals_loop_cons None _ _ _ _ _ _ _ _ _ Hs) in Hlen |- *.
  rewrite (_iter_ideals_loop_cons (Some m) _ _ _ _ _ _ _ _ _ Hs).
  destruct (andb _ _); [|simpl in Hlen; lia].
  destruct (number_str _) as [k|]; [|simpl in Hlen; lia].
  rewrite (decide_False (P := Some (count + 1) = None)) in Hlen |- * by done.
  simpl fst in Hlen |- *. simpl length in Hlen.
  replace (Z.to_nat (m - count)) with (S (Z.to_nat (m - (count + 1)))) by lia.
  simpl take.
  destruct (decide (Some (count + 1) = Some m)) as [[= Heq]|Hne].
  - replace (Z.to_nat (m - (count + 1))) with 0%nat by lia.
    by rewrite take_0.
  - assert (count + 1 < m) as Hlt' by (assert (count + 1 ≠ m) by congruence; lia).
    rewrite IH by (done || lia). done.
Qed.

(** The two dictionaries after the loop of [__init__]. *)
Lemma init_fold_lists (items : list Item) (self : HilbertNumberField) :
  ideals (foldl init_step self items) = ideals self ∧
  primes (foldl init_step self items) = primes self.
Proof.
  revert self. induction items as [|I items IH]; intros self; [done|].
  simpl. by destruct (IH (init_step self I)) as [-> ->].
Qed.

Lemma init_fold_ideal_dict (items : list Item) (self : HilbertNumberField)
    (I : Item) :
  NoDup (item_label <$> items) → I ∈ items →
  ideal_dict (foldl init_step self items) !! item_label I
    = Some (item_ideal I).
Proof.
  induction items as [|J items IH] using rev_ind; intros Hnd HI.
  { by apply elem_of_nil in HI. }
  rewrite foldl_app. simpl.
  rewrite fmap_app in Hnd. apply NoDup_app in Hnd as (Hnd & Hdisj & _).
  apply elem_of_app in HI as [HI|HI].
  - rewrite lookup_insert_ne; [by apply IH|].
    intros Heq. apply (Hdisj (item_label I)).
    + by apply list_elem_of_fmap_2.
    + rewrite <- Heq. simpl. left.
  - apply list_elem_of_singleton in HI as ->. apply lookup_insert_eq.
Qed.

Lemma init_fold_label_dict (items : list Item) (self : HilbertNumberField)
    (idl : Ideal) :
  idl ∈ item_ideal <$> items →
  ∃ I, I ∈ items ∧ item_ideal I = idl ∧
       label_dict (foldl init_step self items) !! idl = Some (item_label I).
Proof.
  induction items as [|J items IH] using rev_ind; intros Hin.
  { by apply elem_of_nil in Hin. }
  rewrite foldl_app. simpl.
  destruct (decide (item_ideal J = idl)) as [<-|Hne].
  - exists J. split; [apply elem_of_app; right; left|].
    split; [done|]. apply lookup_insert_eq.
  - rewrite fmap_app in Hin. apply elem_of_app in Hin as [Hin|Hin].
    + destruct (IH Hin) as (I & HI & Hidl & Hlook).
      exists I. split; [apply elem_of_app; by left|]. split; [done|].
      by rewrite lookup_insert_ne.
    + apply list_elem_of_singleton in Hin. done.
Qed.

Lemma init_fold_miss (items : list Item) (self : HilbertNumberField) :
  (∀ idl, idl ∉ item_ideal <$> items →
     label_dict (foldl init_step self items) !! idl = label_dict self !! idl) ∧
  (∀ lab, lab ∉ item_label <$> items →
     ideal_dict (foldl init_step self items) !! lab = ideal_dict self !! lab).
Proof.
  revert self. induction items as [|J items IH]; intros self; [done|].
  destruct (IH (init_step self J)) as [IH1 IH2].
  split; intros x Hx; rewrite fmap_cons in Hx;
    apply not_elem_of_cons in Hx as [Hne Hx]; simpl foldl.
  - rewrite IH1 by done. simpl. by apply lookup_insert_ne.
  - rewrite IH2 by done. simpl. by apply lookup_insert_ne.
Qed.

(** The constructor, step by step: [findvar], then the loop over the
    generator, which goes as [niceideals] goes. *)
Lemma init_unfold (Fi Fp : list string) :
  init Fi Fp =
    match findvar isalpha Fi with
    | UnicodeError => Raise EncodeError
    | r =>
        match niceideals Fi with
        | Ok out =>
            Ok (foldl init_step (mkHNF Fi Fp (var_of r) ∅ ∅) (to_item <$> out))
        | Raise e => Raise e
        end
    end.
Proof.
  unfold init, ideals_iter, _iter_ideals, niceideals. simpl.
  pose proof (_iter_ideals_loop_None Fi 0 (PyInt 1) 0) as Hiter.
  destruct (findvar isalpha Fi); [| |done].
  all: destruct (niceideals_loop Fi (PyInt 1) 0) as [out|e];
    [by rewrite Hiter|].
  all: destruct (_iter_ideals_loop None Fi 0 (PyInt 1) 0) as [items e'];
    simpl in Hiter; by rewrite Hiter.
Qed.

(** What a constructed object is made of. *)
Lemma init_Ok_inv (Fi Fp : list string) (self : HilbertNumberField) :
  init Fi Fp = Ok self →
  ∃ v out, niceideals Fi = Ok out ∧
         ideals_iter self None = (to_item <$> out, StopIteration) ∧
         self = foldl init_step (mkHNF Fi Fp v ∅ ∅) (to_item <$> out) ∧
         ideals self = Fi ∧ primes self = Fp.
Proof.
  rewrite init_unfold. intros Hinit.
  assert (∃ v out, niceideals Fi = Ok out ∧
            self = foldl init_step (mkHNF Fi Fp v ∅ ∅) (to_item <$> out))
    as (v & out & Hout & ->).
  { destruct (findvar isalpha Fi); [| |done];
      destruct (niceideals Fi) as [out|]; [|done| |done];
      injection Hinit as <-; eauto. }
  exists v, out.
  destruct (init_fold_lists (to_item <$> out) (mkHNF Fi Fp v ∅ ∅)) as [H1 H2].
  split; [done|]. split; [|by rewrite H1, H2].
  unfold ideals_iter, _iter_ideals. rewrite H1. simpl.
  pose proof (_iter_ideals_loop_None Fi 0 (PyInt 1) 0) as Hiter.
  unfold niceideals in Hout. by rewrite Hout in Hiter.
Qed.

(** The labels of a successful run on an input sorted by ascending norm. *)
Lemma niceideals_ranks (strs : list string) (out : list Entry) :
  niceideals strs = Ok out →
  StronglySorted Z.le (parsed_norm <$> strs) →
  length out = length strs ∧
  (∀ i s, strs !! i = Some s →
     ∃ e, out !! i = Some e ∧ idl_norm (e_idl e) = parsed_norm s ∧
          e_label e =
            mk_label (parsed_norm s)
              (Z_str (spec_rank (parsed_norm <$> strs) i (parsed_norm s)))) ∧
  NoDup (e_label <$> out).
Proof.
  unfold niceideals. intros Hrun Hsort.
  pose proof (niceideals_loop_entries _ _ _ _ Hrun) as Hent.
  pose proof (eq_sym (Forall2_length _ _ _ Hent)) as Hlen.
  apply niceideals_loop_PyInt in Hrun.
  pose proof (niceideals_loop_ranks _ _ _ _ Hrun Hsort (or_introl eq_refl))
    as Hranks.
  assert (Hlab : ∀ i s, strs !! i = Some s →
     ∃ e, out !! i = Some e ∧ idl_norm (e_idl e) = parsed_norm s ∧
          e_label e =
            mk_label (parsed_norm s)
              (Z_str (spec_rank (parsed_norm <$> strs) i (parsed_norm s)))).
  { intros i s Hi. destruct (Hranks i s Hi) as (e & He & Hl).
    exists e. split; [done|]. split.
    - destruct (Forall2_lookup_lr _ _ _ _ _ _ Hent Hi He)
        as (n & gen & _ & HN & _). done.
    - rewrite Hl. do 2 f_equal. destruct (parsed_norm s =? 0); lia. }
  split; [done|]. split; [done|].
  apply (spec_labels_NoDup (parsed_norm <$> strs)).
  { by rewrite !length_fmap. }
  intros i N HN. rewrite list_lookup_fmap in HN. rewrite list_lookup_fmap.
  destruct (strs !! i) as [s|] eqn:Hi; [|done]. injection HN as <-.
  destruct (Hlab i s Hi) as (e & -> & _ & Hl). simpl. by rewrite Hl.
Qed.

End LoopFacts.

(** ** The properties of the labeller and of the index *)

Section IndexFacts.


(** C3.  In an object constructed from a list of ideals sorted by
    ascending norm, every ideal yielded at construction has a label, and
    the ideal found under that label is the ideal itself. *)
Theorem ideal_of_ideal_label (Fi Fp : list string)
    (self : HilbertNumberField) (idl : Ideal) :
  init Fi Fp = Ok self →
  StronglySorted Z.le (parsed_norm <$> Fi) →
  idl ∈ item_ideal <$> fst (ideals_iter self None) →
  ∃ L, ideal_label self idl = Ok (Some L) ∧ ideal self L = Ok (Some idl).
Proof.
  intros Hinit Hsort Hin.
  apply init_Ok_inv in Hinit as (v & out & Hout & Hiter & -> & _).
  rewrite Hiter in Hin. simpl in Hin.
  destruct (niceideals_ranks _ _ Hout Hsort) as (_ & _ & Hnd).
  assert (NoDup (item_label <$> (to_item <$> out))) as Hnd'.
  { by rewrite <- list_fmap_compose. }
  destruct (init_fold_label_dict _ (mkHNF Fi Fp v ∅ ∅) _ Hin)
    as (I & HI & <- & Hlab).
  exists (item_label I).
  unfold ideal_label, ideal, try_getitem, dict_getitem.
  rewrite Hlab, (init_fold_ideal_dict _ _ I Hnd' HI). done.
Qed.

(** C4.  The prime accessors are the general accessors: on every object
    and every argument, [prime_label] returns what [ideal_label] returns
    and [prime] returns what [ideal] returns. *)
Theorem prime_accessors_alias (self : HilbertNumberField) (idl : Ideal)
    (lab : string) :
  prime_label self idl = ideal_label self idl ∧
  prime self lab = ideal self lab.
Proof. done. Qed.

(** C6.  On a constructed object, the full iteration yields one pair per
    stored string, and for every limit [m] with [0 < m] that does not
    exceed the number of stored strings, [ideals_iter(number=m)] yields
    the first [m] pairs of the full iteration and ends as an exhausted
    generator. *)
Theorem ideals_iter_limit (Fi Fp : list string) (self : HilbertNumberField)
    (m : Z) :
  init Fi Fp = Ok self →
  0 < m →
  m ≤ Z.of_nat (length (ideals self)) →
  length (fst (ideals_iter self None)) = length (ideals self) ∧
  ideals_iter self (Some m) =
    (take (Z.to_nat m) (fst (ideals_iter self None)), StopIteration).
Proof.
  intros Hinit Hpos Hle.
  apply init_Ok_inv in Hinit as (v & out & Hout & Hiter & _ & Hi & _).
  assert (length (fst (ideals_iter self None)) = length (ideals self)) as Hlen.
  { rewrite Hiter, Hi. simpl. rewrite length_fmap.
    symmetry.
    by apply (Forall2_length _ _ _ (niceideals_loop_entries _ _ _ _ Hout)). }
  split; [done|].
  unfold ideals_iter, _iter_ideals in *.
  rewrite _iter_ideals_loop_limit by lia.
  by rewrite Z.sub_0_r.
Qed.


(** C9.  On a constructed object, an ideal that was not yielded at
    construction has no label and a label that was not assigned at
    construction has no ideal: the four accessors return [None], and do not
    raise. *)
Theorem lookup_miss_is_None (Fi Fp : list string) (self : HilbertNumberField)
    (idl : Ideal) (lab : string) :
  init Fi Fp = Ok self →
  (idl ∉ item_ideal <$> fst (ideals_iter self None) →
     ideal_label self idl = Ok None ∧ prime_label self idl = Ok None) ∧
  (lab ∉ item_label <$> fst (ideals_iter self None) →
     ideal self lab = Ok None ∧ prime self lab = Ok None).
Proof.
  intros Hinit.
  apply init_Ok_inv in Hinit as (v & out & Hout & Hiter & -> & _).
  rewrite Hiter. simpl fst.
  destruct (init_fold_miss (to_item <$> out) (mkHNF Fi Fp v ∅ ∅)) as [H1 H2].
  unfold prime_label, prime, ideal_label, ideal, try_getitem, dict_getitem.
  split; intros Hmiss.
  - rewrite (H1 idl Hmiss). done.
  - rewrite (H2 lab Hmiss). done.
Qed.

(** C10.  On the same list of strings, when [niceideals] returns and the
    iteration of [_iter_ideals] with no limit ends exhausted, the labels
    of the entries are the labels of the items, in the same order. *)
Theorem niceideals_iter_same_labels (self : HilbertNumberField) (pr : bool)
    (out : list Entry) (items : list Item) :
  niceideals (if pr then primes self else ideals self) = Ok out →
  _iter_ideals self pr None = (items, StopIteration) →
  e_label <$> out = item_label <$> items.
Proof.
  unfold niceideals, _iter_ideals. intros Hout Hiter.
  pose proof (_iter_ideals_loop_None
                (if pr then primes self else ideals self) 0 (PyInt 1) 0) as Hn.
  rewrite Hout, Hiter in Hn. injection Hn as ->.
  by rewrite <- list_fmap_compose.
Qed.

End IndexFacts.

(** ** Further properties of the module *)

Section FindvarFacts.

Lemma findvar_in_None (x : string) :
  findvar_in isalpha x = None ↔ alphaless isalpha x = true.
Proof.
  induction x as [|c x IH]; simpl; [done|].
  destruct (isalpha c); simpl; [split; done|exact IH].
Qed.

Lemma findvar_in_Some (x : string) (r : findvar_result) :
  findvar_in isalpha x = Some r →
  ∃ a c b, x = a +:+ String c b ∧ alphaless isalpha a = true ∧
           isalpha c = true ∧
           r = if is_ascii c then Found (String c EmptyString)
               else UnicodeError.
Proof.
  induction x as [|c x IH]; simpl; [done|].
  destruct (isalpha c) eqn:Hc.
  - intros [= <-]. by exists EmptyString, c, x.
  - intros Hr. destruct (IH Hr) as (a & c' & b & -> & Ha & Hc' & ->).
    exists (String c a), c', b. simpl. by rewrite Hc.
Qed.

(** X1.  [findvar] returns [None] exactly when no string of the collection has
    an alphabetic character. *)
Theorem findvar_NotFound_iff (L : list string) :
  findvar isalpha L = NotFound ↔
  Forall (fun x => alphaless isalpha x = true) L.
Proof.
  induction L as [|x L IH]; simpl; [split; [constructor|done]|].
  destruct (findvar_in isalpha x) as [r|] eqn:Hx.
  - destruct (findvar_in_Some x r Hx) as (a & c & b & -> & Ha & Hc & ->).
    split.
    + by destruct (is_ascii c).
    + intros [Hall _]%Forall_cons. exfalso.
      apply findvar_in_None in Hall. congruence.
  - rewrite IH, Forall_cons. apply findvar_in_None in Hx. tauto.
Qed.

(** X2.  When some string has an alphabetic character, [findvar] stops at the
    first one in reading order: it returns it if it is an ASCII character,
    and fails to encode it otherwise. *)
Theorem findvar_first (L : list string) :
  findvar isalpha L ≠ NotFound →
  ∃ pre x post a c b,
    L = pre ++ x :: post ∧ x = a +:+ String c b ∧
    Forall (fun y => alphaless isalpha y = true) pre ∧
    alphaless isalpha a = true ∧ isalpha c = true ∧
    findvar isalpha L =
      if is_ascii c then Found (String c EmptyString) else UnicodeError.
Proof.
  induction L as [|x L IH]; simpl; [done|].
  destruct (findvar_in isalpha x) as [r|] eqn:Hx.
  - intros _. destruct (findvar_in_Some x r Hx) as (a & c & b & -> & Ha & Hc & ->).
    by exists [], (a +:+ String c b), L, a, c, b.
  - intros Hne. destruct (IH Hne) as (pre & y & post & a & c & b & -> & -> & Hpre & Ha & Hc & Hr).
    exists (x :: pre), (a +:+ String c b), post, a, c, b.
    repeat split; try done.
    constructor; [by apply findvar_in_None|done].
Qed.

End FindvarFacts.

Section DecodeFacts.

Lemma string_app_cons (x : ascii) (a b : string) :
  String x a +:+ b = String x (a +:+ b).
Proof. reflexivity. Qed.

Lemma string_app_nil_l (b : string) : EmptyString +:+ b = b.
Proof. reflexivity. Qed.

Lemma string_app_nil_r (a : string) : a +:+ EmptyString = a.
Proof.
  induction a as [|x a IH]; [done|]. by rewrite string_app_cons, IH.
Qed.

Lemma drop_last_snoc (s : string) (d : ascii) :
  drop_last (s +:+ String d EmptyString) = s.
Proof.
  induction s as [|c s IH]; simpl; [done|].
  rewrite IH. by destruct s.
Qed.

Lemma string_app_assoc (a b c : string) : (a +:+ b) +:+ c = a +:+ (b +:+ c).
Proof.
  induction a as [|x a IH]; [done|]. by rewrite !string_app_cons, IH.
Qed.

Lemma remove_spaces_app (a b : string) :
  remove_spaces (a +:+ b) = remove_spaces a +:+ remove_spaces b.
Proof.
  induction a as [|c a IH]; simpl; [done|].
  destruct (Ascii.eqb c " "); simpl; by rewrite IH.
Qed.

Lemma commaless_remove_spaces (a : string) :
  commaless a = true → commaless (remove_spaces a) = true.
Proof.
  induction a as [|c a IH]; simpl; [done|].
  intros [Hc Ha]%andb_true_iff.
  destruct (Ascii.eqb c " "); simpl; [by apply IH|].
  rewrite Hc. by apply IH.
Qed.

Lemma split_comma_nonempty (s : string) : split_comma s ≠ [].
Proof.
  induction s as [|c s IH]; simpl; [done|].
  destruct (Ascii.eqb c ","); [done|]. by destruct (split_comma s).
Qed.

(** A comma-free prefix before a comma is the first token. *)
Lemma split_comma_app (a r : string) :
  commaless a = true →
  split_comma (a +:+ String "," r) = a :: split_comma r.
Proof.
  induction a as [|c a IH]; simpl; [done|].
  intros [Hc Ha]%andb_true_iff. apply negb_true_iff in Hc.
  by rewrite Hc, IH.
Qed.

Lemma split_comma_commaless (a : string) :
  commaless a = true → split_comma a = [a].
Proof.
  induction a as [|c a IH]; simpl; [done|].
  intros [Hc Ha]%andb_true_iff. apply negb_true_iff in Hc.
  by rewrite Hc, IH.
Qed.

Lemma split_comma_length (s : string) :
  length (split_comma s) = S (count_commas s).
Proof.
  induction s as [|c s IH]; simpl; [done|].
  destruct (Ascii.eqb c ","); simpl; [by rewrite IH|].
  pose proof (split_comma_nonempty s).
  destruct (split_comma s); [done|]. simpl in *. lia.
Qed.

Lemma count_commas_remove_spaces (s : string) :
  count_commas (remove_spaces s) = count_commas s.
Proof.
  induction s as [|c s IH]; simpl; [done|].
  destruct (Ascii.eqb_spec c " ") as [->|Hc]; simpl; [done|].
  by rewrite IH.
Qed.

(** X3.  The fields of [str2ideal] are what stands between the commas, with the
    spaces taken out.  The first and the last character are dropped without
    being looked at, and what follows a third comma is ignored. *)
Theorem str2ideal_fields (c d : ascii) (a b g tail : string) :
  commaless a = true → commaless b = true → commaless g = true →
  tail = EmptyString ∨ (∃ t, tail = String "," t) →
  str2ideal (String c (a +:+ String "," (b +:+ String "," (g +:+ tail
                                                  +:+ String d EmptyString))))
  = (N ← ZZ_of_string (remove_spaces a) ;
     n ← ZZ_of_string (remove_spaces b) ;
     gen ← str2fieldelt (remove_spaces g) ;
     Ok (N, n, F_ideal n gen, gen)).
Proof.
  intros Ha Hb Hg Htail. unfold str2ideal, slice_1_m1.
  assert (a +:+ String "," (b +:+ String "," (g +:+ tail +:+ String d EmptyString))
          = (a +:+ String "," (b +:+ String "," (g +:+ tail)))
              +:+ String d EmptyString) as ->.
  { symmetry. rewrite string_app_assoc, string_app_cons.
    rewrite string_app_assoc, string_app_cons.
    by rewrite string_app_assoc. }
  rewrite drop_last_snoc, remove_spaces_app. simpl remove_spaces.
  rewrite split_comma_app by (by apply commaless_remove_spaces).
  rewrite remove_spaces_app. simpl remove_spaces.
  rewrite split_comma_app by (by apply commaless_remove_spaces).
  assert (∃ ts, split_comma (remove_spaces (g +:+ tail))
                = remove_spaces g :: ts) as [ts ->].
  { destruct Htail as [->|[t ->]].
    - exists []. rewrite remove_spaces_app. simpl.
      rewrite string_app_nil_r. apply split_comma_commaless.
      by apply commaless_remove_spaces.
    - eexists. rewrite remove_spaces_app. simpl remove_spaces.
      apply split_comma_app. by apply commaless_remove_spaces. }
  simpl. destruct (ZZ_of_string (remove_spaces a)); [|done]. simpl.
  destruct (ZZ_of_string (remove_spaces b)); [|done]. done.
Qed.

(** X4.  With fewer than two commas between its first and last character a
    string never decodes: [str2ideal] raises [TypeError] or
    [IndexError]. *)
Theorem str2ideal_too_few_fields (strg : string) :
  (count_commas (slice_1_m1 strg) < 2)%nat →
  ∃ e, str2ideal strg = Raise e ∧ (e = TypeError ∨ e = IndexError).
Proof.
  intros Hlt. unfold str2ideal.
  pose proof (split_comma_length (remove_spaces (slice_1_m1 strg))) as Hlen.
  rewrite count_commas_remove_spaces in Hlen.
  destruct (split_comma (remove_spaces (slice_1_m1 strg))) as [|t0 [|t1 [|t2 ts]]];
    simpl in Hlen; try lia; simpl.
  - unfold ZZ_of_string. destruct (ZZ t0); simpl; eauto.
  - unfold ZZ_of_string. destruct (ZZ t0); simpl; [|eauto].
    destruct (ZZ t1); simpl; eauto.
Qed.

(** [str2ideal] raises nothing but [TypeError] and [IndexError], and the
    ideal it returns is the one generated by the two fields it returns. *)
Lemma str2ideal_Raise (strg : string) (e : exn) :
  str2ideal strg = Raise e → e = TypeError ∨ e = IndexError.
Proof.
  unfold str2ideal, getitem, ZZ_of_string, str2fieldelt.
  destruct (split_comma _) as [|t0 [|t1 [|t2 ts]]]; simpl;
    repeat (match goal with
            | |- context [ZZ ?t] => destruct (ZZ t); simpl
            | |- context [F_of_string ?t] => destruct (F_of_string t); simpl
            end); intros [= <-]; auto.
Qed.

Lemma str2ideal_Ok (strg : string) (N n : Z) (idl : Ideal) (gen : FieldElt) :
  str2ideal strg = Ok (N, n, idl, gen) → idl = F_ideal n gen.
Proof.
  unfold str2ideal, getitem, ZZ_of_string, str2fieldelt.
  destruct (split_comma _) as [|t0 [|t1 [|t2 ts]]]; simpl;
    repeat (match goal with
            | |- context [ZZ ?t] => destruct (ZZ t); simpl
            | |- context [F_of_string ?t] => destruct (F_of_string t); simpl
            end); intros [=]; by subst.
Qed.

End DecodeFacts.

Section LabellerFacts.

(** X5.  Whenever [niceideals] returns, it returns one entry per string, in
    order, and the entry of a string holds the ideal generated by the two
    fields decoded from it, the normal form of that ideal, and an ideal
    whose norm and least integer are the ones the string records. *)
Theorem niceideals_entries (strs : list string) (out : list Entry) :
  niceideals strs = Ok out →
  length out = length strs ∧
  ∀ i s e, strs !! i = Some s → out !! i = Some e →
    ∃ N n gen,
      str2ideal s = Ok (N, n, e_idl e, gen) ∧
      e_idl e = F_ideal n gen ∧
      idl_norm (e_idl e) = N ∧ smallest_integer (e_idl e) = n ∧
      e_hnf e = pari_hnf (e_idl e).
Proof.
  unfold niceideals. intros Hrun.
  pose proof (niceideals_loop_entries _ _ _ _ Hrun) as Hent.
  split; [symmetry; by eapply Forall2_length|].
  intros i s e Hs He.
  destruct (Forall2_lookup_lr _ _ _ _ _ _ Hent Hs He)
    as (n & gen & Hdec & HN & Hn & Hh).
  exists (parsed_norm s), n, gen. repeat split; try done.
  by eapply str2ideal_Ok.
Qed.

Lemma niceideals_loop_prefix (l1 l2 : list string) (il : pynum) (norm : Z)
    (out : list Entry) :
  niceideals_loop (l1 ++ l2) il norm = Ok out →
  niceideals_loop l1 il norm = Ok (take (length l1) out).
Proof.
  revert il norm out. induction l1 as [|s l1 IH]; intros il norm out Hrun.
  { by rewrite take_0. }
  rewrite <- app_comm_cons in Hrun.
  destruct (str2ideal_cases s) as [(N & n & idl & gen & Hs)|[e He]].
  2: { simpl in Hrun. by rewrite He in Hrun. }
  rewrite (niceideals_loop_cons s (l1 ++ l2) _ _ _ _ _ _ Hs) in Hrun.
  rewrite (niceideals_loop_cons s l1 _ _ _ _ _ _ Hs).
  destruct ((idl_norm idl =? N) && (smallest_integer idl =? n)); [|done].
  destruct (number_str (next_ilabel N norm il)) as [k|]; [|done].
  destruct (niceideals_loop (l1 ++ l2) _ N) as [out'|] eqn:Hrest; [|done].
  injection Hrun as <-. by rewrite (IH _ _ _ Hrest).
Qed.

(** X6.  The labels of a list do not depend on what is appended to it: when
    [niceideals] returns on a list, it returns on each of its prefixes,
    with the same entries. *)
Theorem niceideals_prefix (l1 l2 : list string) (out : list Entry) :
  niceideals (l1 ++ l2) = Ok out →
  niceideals l1 = Ok (take (length l1) out).
Proof. apply niceideals_loop_prefix. Qed.

Lemma trailing_run_snoc (N M : Z) (l : list Z) :
  trailing_run N (l ++ [M]) = if M =? N then 1 + trailing_run N l else 0.
Proof. unfold trailing_run. by rewrite reverse_snoc. Qed.

(** The running counter is the position within the current run of equal
    norms, whatever the order of the input; [seen] are the norms already
    gone through. *)
Lemma niceideals_loop_runs (strs : list string) (k0 norm : Z)
    (out : list Entry) (seen : list Z) :
  niceideals_loop strs (SageInteger k0) norm = Ok out →
  (seen = [] ∧ k0 = 1) ∨
    (last seen = Some norm ∧ k0 = 1 + trailing_run norm seen) →
  ∀ i s, strs !! i = Some s →
    ∃ e, out !! i = Some e ∧
         e_label e =
           mk_label (parsed_norm s)
             (Z_str (1 + trailing_run (parsed_norm s)
                           (seen ++ take i (parsed_norm <$> strs)))).
Proof.
  revert k0 norm out seen.
  induction strs as [|s rest IH]; intros k0 norm out seen Hrun Hinv i s' Hi.
  { done. }
  destruct (str2ideal_cases s) as [(N & n & idl & gen & Hs)|[e He]].
  2: { simpl in Hrun. by rewrite He in Hrun. }
  rewrite (niceideals_loop_cons _ _ _ _ _ _ _ _ Hs) in Hrun.
  destruct ((idl_norm idl =? N) && (smallest_integer idl =? n)); [|done].
  assert (next_ilabel N norm (SageInteger k0)
            = SageInteger (1 + trailing_run N seen)) as Hnext.
  { unfold next_ilabel. destruct Hinv as [[-> ->]|[Hlast ->]].
    - by destruct (N =? norm).
    - destruct (Z.eqb_spec N norm) as [->|Hne]; simpl; [done|].
      apply last_Some in Hlast as [l' ->].
      rewrite trailing_run_snoc.
      destruct (Z.eqb_spec norm N); [congruence|done]. }
  rewrite Hnext in Hrun. simpl in Hrun.
  destruct (niceideals_loop rest _ N) as [out'|] eqn:Hrest; [|done].
  injection Hrun as <-.
  rewrite fmap_cons, (parsed_norm_Ok _ _ _ _ _ Hs).
  destruct i as [|i]; simpl in Hi.
  - injection Hi as <-. eexists; split; [done|]. simpl.
    by rewrite (parsed_norm_Ok _ _ _ _ _ Hs), app_nil_r.
  - destruct (IH _ _ _ (seen ++ [N]) Hrest) with (i := i) (s := s')
      as (e & He & Hlab); [|done|].
    { right. rewrite last_snoc, trailing_run_snoc, Z.eqb_refl.
      split; [done|lia]. }
    exists e. split; [done|]. rewrite Hlab.
    by rewrite <- app_assoc.
Qed.

(** X7.  Whatever the order of the input, an entry is labelled ["N.k"] with [N]
    the norm field of its string and [k] its position within its run of
    consecutive strings of that norm: [k] is 1 after every change of
    norm. *)
Theorem niceideals_run_rank (strs : list string) (out : list Entry) :
  niceideals strs = Ok out →
  ∀ i s, strs !! i = Some s →
    ∃ e, out !! i = Some e ∧
         e_label e =
           mk_label (parsed_norm s)
             (Z_str (run_rank (parsed_norm <$> strs) i (parsed_norm s))).
Proof.
  unfold niceideals. intros Hrun%niceideals_loop_PyInt i s Hi.
  destruct (niceideals_loop_runs _ _ _ _ [] Hrun (or_introl (conj eq_refl eq_refl))
              i s Hi) as (e & He & Hlab).
  exists e. split; [done|]. by rewrite Hlab.
Qed.

Lemma niceideals_loop_no_AttributeError (strs : list string) (k norm : Z) :
  niceideals_loop strs (SageInteger k) norm ≠ Raise AttributeError.
Proof.
  revert k norm. induction strs as [|s rest IH]; intros k norm; [done|].
  destruct (str2ideal_cases s) as [(N & n & idl & gen & Hs)|[e He]].
  - rewrite (niceideals_loop_cons _ _ _ _ _ _ _ _ Hs).
    destruct ((idl_norm idl =? N) && (smallest_integer idl =? n)); [|done].
    assert (∃ k', next_ilabel N norm (SageInteger k) = SageInteger k')
      as [k' ->].
    { unfold next_ilabel. destruct (negb (N =? norm)); eauto. }
    simpl. specialize (IH (k' + 1) N).
    destruct (niceideals_loop rest _ N); [done|congruence].
  - simpl. rewrite He. simpl. intros [= ->].
    by destruct (str2ideal_Raise _ _ He).
Qed.

(** X9.  [niceideals] raises [AttributeError] in one case only: the first
    string decodes, agrees with its ideal and has the norm field 0, so
    that [ilabel] is still the Python [int] it was initialised with when
    its [str] is asked for. *)
Theorem niceideals_AttributeError_iff (strs : list string) :
  niceideals strs = Raise AttributeError ↔
  ∃ s rest n idl gen,
    strs = s :: rest ∧ str2ideal s = Ok (0, n, idl, gen) ∧
    idl_norm idl = 0 ∧ smallest_integer idl = n.
Proof.
  unfold niceideals. split.
  - destruct strs as [|s rest]; [done|].
    destruct (str2ideal_cases s) as [(N & n & idl & gen & Hs)|[e He]].
    + rewrite (niceideals_loop_cons _ _ _ _ _ _ _ _ Hs).
      destruct ((idl_norm idl =? N) && (smallest_integer idl =? n)) eqn:Ha;
        [|done].
      apply andb_true_iff in Ha as [HN Hn]. apply Z.eqb_eq in HN, Hn.
      unfold next_ilabel. destruct (Z.eqb_spec N 0) as [->|Hne]; simpl.
      * intros _. by exists s, rest, n, idl, gen.
      * pose proof (niceideals_loop_no_AttributeError rest (1 + 1) N) as Hno.
        destruct (niceideals_loop rest _ N); [done|congruence].
    + simpl. rewrite He. simpl. intros [= ->].
      by destruct (str2ideal_Raise _ _ He).
  - intros (s & rest & n & idl & gen & -> & Hs & HN & Hn).
    rewrite (niceideals_loop_cons _ _ _ _ _ _ _ _ Hs).
    by rewrite HN, Hn, !Z.eqb_refl.
Qed.

(** X23.  On a list of serialized ideals, each agreeing with the ideal
    constructed from it, sorted by ascending norm, and whose first norm
    field is not 0, the labeller returns one entry per string, both as
    [niceideals] and as the iteration of [_iter_ideals] with no limit; the
    entry at position [i] has the norm [N] parsed from its string and the
    label ["N.k"], where [k] is its 1-based position among the entries of
    norm [N] in input order; and the labels are pairwise distinct. *)
Theorem labels_by_rank (strs : list string) :
  forallb agrees strs = true →
  head_norm_nonzero strs →
  StronglySorted Z.le (parsed_norm <$> strs) →
  ∃ out,
    niceideals strs = Ok out ∧
    (∀ (self : HilbertNumberField) (pr : bool),
        (if pr then primes self else ideals self) = strs →
        _iter_ideals self pr None = (to_item <$> out, StopIteration)) ∧
    length out = length strs ∧
    (∀ i s, strs !! i = Some s →
       ∃ e, out !! i = Some e ∧ idl_norm (e_idl e) = parsed_norm s ∧
            e_label e =
              mk_label (parsed_norm s)
                (Z_str (spec_rank (parsed_norm <$> strs) i (parsed_norm s)))) ∧
    NoDup (e_label <$> out).
Proof.
  intros Hag Hhead Hsort.
  pose proof (niceideals_loop_outcome strs (PyInt 1) 0
                (forallb_agrees_decodes strs Hag)
                (or_intror (conj eq_refl Hhead))) as Hout.
  rewrite Hag in Hout. destruct Hout as [out Hout].
  exists out. split; [done|]. split.
  - intros self pr Hstrs. unfold _iter_ideals. rewrite Hstrs.
    pose proof (_iter_ideals_loop_None strs 0 (PyInt 1) 0) as Hiter.
    by rewrite Hout in Hiter.
  - by apply niceideals_ranks.
Qed.

End LabellerFacts.

Section IteratorFacts.

Lemma _iter_ideals_loop_ge (strs : list string) (count : Z) (il : pynum)
    (norm m : Z) :
  m ≤ count →
  _iter_ideals_loop (Some m) strs count il norm
    = _iter_ideals_loop None strs count il norm.
Proof.
  revert count il norm.
  induction strs as [|s rest IH]; intros count il norm Hle; [done|].
  destruct (str2ideal_cases s) as [(N & n & idl & gen & Hs)|[e He]].
  2: { simpl. by rewrite He. }
  rewrite (_iter_ideals_loop_cons (Some m) _ _ _ _ _ _ _ _ _ Hs).
  rewrite (_iter_ideals_loop_cons None _ _ _ _ _ _ _ _ _ Hs).
  destruct ((idl_norm idl =? N) && (smallest_integer idl =? n)); [|done].
  destruct (number_str _) as [k|]; [|done].
  rewrite (decide_False (P := Some (count + 1) = None)) by done.
  rewrite decide_False by (intros [= Heq]; lia).
  by rewrite IH by lia.
Qed.

Lemma _iter_ideals_loop_beyond (strs : list string) (count : Z) (il : pynum)
    (norm m : Z) :
  Z.of_nat (length (fst (_iter_ideals_loop None strs count il norm)))
    < m - count →
  _iter_ideals_loop (Some m) strs count il norm
    = _iter_ideals_loop None strs count il norm.
Proof.
  revert count il norm.
  induction strs as [|s rest IH]; intros count il norm Hlen; [done|].
  destruct (str2ideal_cases s) as [(N & n & idl & gen & Hs)|[e He]].
  2: { simpl. by rewrite He. }
  rewrite (_iter_ideals_loop_cons None _ _ _ _ _ _ _ _ _ Hs) in Hlen |- *.
  rewrite (_iter_ideals_loop_cons (Some m) _ _ _ _ _ _ _ _ _ Hs).
  destruct ((idl_norm idl =? N) && (smallest_integer idl =? n)); [|done].
  destruct (number_str _) as [k|]; [|done].
  rewrite (decide_False (P := Some (count + 1) = None)) in Hlen |- * by done.
  simpl fst in Hlen. simpl length in Hlen.
  rewrite decide_False by (intros [= Heq]; lia).
  by rewrite IH by lia.
Qed.

Lemma _iter_ideals_loop_take (strs : list string) (count : Z) (il : pynum)
    (norm m : Z) :
  count < m →
  _iter_ideals_loop (Some m) strs count il norm
    = _iter_ideals_loop (Some m) (take (Z.to_nat (m - count)) strs)
        count il norm.
Proof.
  revert count il norm.
  induction strs as [|s rest IH]; intros count il norm Hlt.
  { by rewrite take_nil. }
  replace (Z.to_nat (m - count)) with (S (Z.to_nat (m - (count + 1)))) by lia.
  rewrite firstn_cons.
  destruct (str2ideal_cases s) as [(N & n & idl & gen & Hs)|[e He]].
  2: { simpl. by rewrite He. }
  rewrite !(_iter_ideals_loop_cons (Some m) _ _ _ _ _ _ _ _ _ Hs).
  destruct ((idl_norm idl =? N) && (smallest_integer idl =? n)); [|done].
  destruct (number_str _) as [k|]; [|done].
  case_decide as Hm; [done|].
  assert (count + 1 < m) by (assert (count + 1 ≠ m) by congruence; lia).
  by rewrite <- IH by done.
Qed.

(** X11.  A limit of 0, or a negative one, is no limit: [count] is compared with
    it after it has been incremented, and never equals it. *)
Theorem _iter_ideals_nonpositive_limit (self : HilbertNumberField)
    (pr : bool) (m : Z) :
  m ≤ 0 → _iter_ideals self pr (Some m) = _iter_ideals self pr None.
Proof. intros Hm. by apply _iter_ideals_loop_ge. Qed.

(** X12.  For a positive limit [m], on any object and either list, the items
    yielded are the first [m] items of the unlimited iteration (all of
    them if there are fewer); the generator ends exhausted when there were
    [m], and ends as the unlimited one otherwise. *)
Theorem _iter_ideals_positive_limit (self : HilbertNumberField) (pr : bool)
    (m : Z) :
  0 < m →
  _iter_ideals self pr (Some m) =
    (take (Z.to_nat m) (fst (_iter_ideals self pr None)),
     if decide (m ≤ Z.of_nat (length (fst (_iter_ideals self pr None))))
     then StopIteration else snd (_iter_ideals self pr None)).
Proof.
  intros Hm. unfold _iter_ideals. case_decide as Hle.
  - rewrite _iter_ideals_loop_limit by lia. by rewrite Z.sub_0_r.
  - rewrite _iter_ideals_loop_beyond by lia.
    rewrite take_ge by lia.
    by destruct (_iter_ideals_loop None _ 0 (PyInt 1) 0).
Qed.

(** X13.  With a positive limit [m] the generator never reads past the [m]-th
    string: the strings after it, whatever they are, change nothing. *)
Theorem _iter_ideals_limit_lazy (Fi Fp : list string)
    (v : option string) (d1 : gmap string Ideal) (d2 : gmap Ideal string)
    (pr : bool) (m : Z) :
  0 < m →
  _iter_ideals (mkHNF Fi Fp v d1 d2) pr (Some m) =
  _iter_ideals (mkHNF (take (Z.to_nat m) Fi) (take (Z.to_nat m) Fp) v d1 d2)
               pr (Some m).
Proof.
  intros Hm. unfold _iter_ideals. simpl.
  rewrite _iter_ideals_loop_take by done. rewrite Z.sub_0_r.
  by destruct pr.
Qed.

End IteratorFacts.

Section ConstructorFacts.

(** X14.  The constructor runs [findvar] on the list of ideals first: when
    that raises, the constructor raises the same error and decodes nothing;
    when it returns, the constructor fails exactly where [niceideals] fails
    on the list, with the same exception, and returns exactly when it
    returns. *)
Theorem init_raises_as_niceideals (Fi Fp : list string) :
  (findvar isalpha Fi = UnicodeError → init Fi Fp = Raise EncodeError) ∧
  (findvar isalpha Fi ≠ UnicodeError →
     (∀ e, init Fi Fp = Raise e ↔ niceideals Fi = Raise e) ∧
     ((∃ self, init Fi Fp = Ok self) ↔ (∃ out, niceideals Fi = Ok out))).
Proof.
  rewrite init_unfold. split.
  - by intros ->.
  - intros Hvar.
    destruct (findvar isalpha Fi); [| |done];
      destruct (niceideals Fi) as [out|e'].
    all: try (split; [done|]; split; eauto).
    all: split; [intros e; split; intros [= ->]; done|]; split; intros [? [=]].
Qed.

Lemma init_fold_dicts (items : list Item) (s1 s2 : HilbertNumberField) :
  ideal_dict s1 = ideal_dict s2 → label_dict s1 = label_dict s2 →
  ideal_dict (foldl init_step s1 items) = ideal_dict (foldl init_step s2 items) ∧
  label_dict (foldl init_step s1 items) = label_dict (foldl init_step s2 items).
Proof.
  revert s1 s2. induction items as [|I items IH]; intros s1 s2 H1 H2; [done|].
  simpl. apply IH; simpl; congruence.
Qed.

(** X15.  The constructor stores the list of primes without decoding it: its
    outcome and the two dictionaries are the same whatever that list is,
    be it made of strings that do not decode. *)
Theorem init_ignores_primes (Fi Fp Fp' : list string) :
  match init Fi Fp, init Fi Fp' with
  | Ok self, Ok self' =>
      ideal_dict self = ideal_dict self' ∧
      label_dict self = label_dict self' ∧
      primes self = Fp ∧ primes self' = Fp'
  | Raise e, Raise e' => e = e'
  | _, _ => False
  end.
Proof.
  rewrite !init_unfold.
  assert (∀ v : option string,
            let self := foldl init_step (mkHNF Fi Fp v ∅ ∅) in
            let self' := foldl init_step (mkHNF Fi Fp' v ∅ ∅) in
            ∀ items,
              ideal_dict (self items) = ideal_dict (self' items) ∧
              label_dict (self items) = label_dict (self' items) ∧
              primes (self items) = Fp ∧ primes (self' items) = Fp') as Hfold.
  { intros v self self' items. unfold self, self'.
    destruct (init_fold_dicts items
                (mkHNF Fi Fp v ∅ ∅) (mkHNF Fi Fp' v ∅ ∅)) as [-> ->]; try done.
    destruct (init_fold_lists items (mkHNF Fi Fp v ∅ ∅)) as [_ ->].
    by destruct (init_fold_lists items (mkHNF Fi Fp' v ∅ ∅)) as [_ ->]. }
  destruct (findvar isalpha Fi) as [x| |]; [| |done];
    (destruct (niceideals Fi) as [out|e]; [apply Hfold|done]).
Qed.

Lemma init_fold_hit (items : list Item) (self : HilbertNumberField)
    (L : string) (I : Ideal) :
  (label_dict (foldl init_step self items) !! I = Some L →
     label_dict self !! I = Some L ∨ mkItem L I ∈ items) ∧
  (ideal_dict (foldl init_step self items) !! L = Some I →
     ideal_dict self !! L = Some I ∨ mkItem L I ∈ items).
Proof.
  revert self. induction items as [|[L' I'] items IH]; intros self.
  { split; by left. }
  simpl. destruct (IH (init_step self (mkItem L' I'))) as [IH1 IH2].
  split; intros Hlook.
  - destruct (IH1 Hlook) as [Hs|Hin]; [|right; by right].
    simpl in Hs. apply lookup_insert_Some in Hs as [[-> ->]|[_ Hs]].
    + right. left.
    + by left.
  - destruct (IH2 Hlook) as [Hs|Hin]; [|right; by right].
    simpl in Hs. apply lookup_insert_Some in Hs as [[-> ->]|[_ Hs]].
    + right. left.
    + by left.
Qed.

(** X16.  Every hit is an item of the construction: when [ideal_label] returns a
    label for an ideal, or [ideal] an ideal for a label, that pair was
    yielded by the iteration the index was built from. *)
Theorem lookup_hit_was_yielded (Fi Fp : list string)
    (self : HilbertNumberField) (idl : Ideal) (lab : string) :
  init Fi Fp = Ok self →
  (ideal_label self idl = Ok (Some lab) →
     mkItem lab idl ∈ fst (ideals_iter self None)) ∧
  (ideal self lab = Ok (Some idl) →
     mkItem lab idl ∈ fst (ideals_iter self None)).
Proof.
  intros Hinit.
  apply init_Ok_inv in Hinit as (v & out & Hout & Hiter & -> & _).
  rewrite Hiter. simpl fst.
  destruct (init_fold_hit (to_item <$> out) (mkHNF Fi Fp v ∅ ∅) lab idl)
    as [H1 H2].
  unfold ideal_label, ideal, try_getitem, dict_getitem.
  split; intros Hres.
  - destruct (label_dict _ !! idl) as [L|] eqn:Hl; [|done].
    injection Hres as ->. by destruct (H1 eq_refl).
  - destruct (ideal_dict _ !! lab) as [I|] eqn:Hl; [|done].
    injection Hres as ->. by destruct (H2 eq_refl).
Qed.

Lemma init_fold_last (pre post : list Item) (it : Item)
    (self : HilbertNumberField) :
  (item_ideal it ∉ item_ideal <$> post →
     label_dict (foldl init_step self (pre ++ it :: post)) !! item_ideal it
       = Some (item_label it)) ∧
  (item_label it ∉ item_label <$> post →
     ideal_dict (foldl init_step self (pre ++ it :: post)) !! item_label it
       = Some (item_ideal it)).
Proof.
  rewrite foldl_app. simpl.
  destruct (init_fold_miss post (init_step (foldl init_step self pre) it))
    as [H1 H2].
  split; intros Hmiss.
  - rewrite (H1 _ Hmiss). simpl. apply lookup_insert_eq.
  - rewrite (H2 _ Hmiss). simpl. apply lookup_insert_eq.
Qed.

Lemma lookup_returns_last_aux (Fi Fp : list string)
    (self : HilbertNumberField) (pre post : list Item) (it : Item) :
  init Fi Fp = Ok self →
  fst (ideals_iter self None) = pre ++ it :: post →
  (item_ideal it ∉ item_ideal <$> post →
     ideal_label self (item_ideal it) = Ok (Some (item_label it))) ∧
  (item_label it ∉ item_label <$> post →
     ideal self (item_label it) = Ok (Some (item_ideal it))).
Proof.
  intros Hinit Hitems.
  apply init_Ok_inv in Hinit as (v & out & Hout & Hiter & -> & _).
  rewrite Hiter in Hitems. simpl in Hitems. rewrite Hitems.
  destruct (init_fold_last pre post it (mkHNF Fi Fp v ∅ ∅)) as [H1 H2].
  unfold ideal_label, ideal, try_getitem, dict_getitem.
  split; intros Hmiss.
  - by rewrite (H1 Hmiss).
  - by rewrite (H2 Hmiss).
Qed.

(** X17.  The last writer wins: an ideal listed more than once is found under
    the label of its last occurrence, and a label issued more than once
    leads to the ideal of its last occurrence. *)
Theorem lookup_returns_last (Fi Fp : list string) (self : HilbertNumberField)
    (pre post : list Item) (it : Item) :
  init Fi Fp = Ok self →
  fst (ideals_iter self None) = pre ++ it :: post →
  (item_ideal it ∉ item_ideal <$> post →
     ideal_label self (item_ideal it) = Ok (Some (item_label it))) ∧
  (item_label it ∉ item_label <$> post →
     ideal self (item_label it) = Ok (Some (item_ideal it))).
Proof. apply lookup_returns_last_aux. Qed.

(** X18.  The other round trip: where the ideals yielded at construction are
    pairwise distinct, every label issued leads to an ideal whose label it
    is, in whatever order the ideals were listed. *)
Theorem ideal_label_of_ideal (Fi Fp : list string) (self : HilbertNumberField)
    (lab : string) :
  init Fi Fp = Ok self →
  NoDup (item_ideal <$> fst (ideals_iter self None)) →
  lab ∈ item_label <$> fst (ideals_iter self None) →
  ∃ idl, ideal self lab = Ok (Some idl) ∧
         ideal_label self idl = Ok (Some lab).
Proof.
  intros Hinit Hnd Hin.
  pose proof Hinit as Hinit'.
  apply init_Ok_inv in Hinit' as (v & out & Hout & Hiter & _).
  rewrite Hiter in Hnd, Hin. simpl in Hnd, Hin.
  (* the last item with this label *)
  assert (∃ pre it post, to_item <$> out = pre ++ it :: post ∧
            item_label it = lab ∧ lab ∉ item_label <$> post)
    as (pre & it & post & Hsplit & Hlab & Hpost).
  { revert Hin. generalize (to_item <$> out). intros items.
    induction items as [|it items IH] using rev_ind; intros Hin.
    { by apply elem_of_nil in Hin. }
    destruct (decide (item_label it = lab)) as [Heq|Hne].
    - exists items, it, []. repeat split; [done|].
      apply not_elem_of_nil.
    - rewrite fmap_app in Hin. apply elem_of_app in Hin as [Hin|Hin].
      + destruct (IH Hin) as (pre & it' & post & -> & Hl & Hp).
        exists pre, it', (post ++ [it]). rewrite <- app_assoc. simpl.
        repeat split; [done|]. rewrite fmap_app.
        intros [?|Hx]%elem_of_app; [done|].
        apply list_elem_of_singleton in Hx. done.
      + apply list_elem_of_singleton in Hin. done. }
  assert (item_ideal it ∉ item_ideal <$> post) as Hpost'.
  { rewrite Hsplit, fmap_app, fmap_cons in Hnd.
    apply NoDup_app in Hnd as (_ & _ & Hnd).
    by apply NoDup_cons in Hnd as [? _]. }
  assert (fst (ideals_iter self None) = pre ++ it :: post) as Hsplit'.
  { by rewrite Hiter. }
  destruct (lookup_returns_last_aux Fi Fp self pre post it Hinit Hsplit')
    as [H1 H2].
  exists (item_ideal it). rewrite <- Hlab. split; [apply H2|apply H1]; [|done].
  by rewrite Hlab.
Qed.

End ConstructorFacts.

Section ConjugationFacts.

Lemma elem_of_sort_by (σ : store) (L : list loc) (l : loc) :
  l ∈ sort_by σ L ↔ l ∈ L.
Proof. apply elem_of_py_sort. Qed.

(** X19.  What [conjideals] does to the inner lists of its argument.  It never
    changes an ideal or a label, and never touches an inner list that is
    not in its argument; with no automorphism it changes nothing; otherwise
    it leaves in position 0 of every inner list of its argument the normal
    form of the image of its ideal under the last automorphism. *)
Theorem conjideals_store_effect (σ : store) (ideals : list loc)
    (auts : list (Ideal -> Ideal)) :
  (∀ l, e_idl (fst (conjideals σ ideals auts) l) = e_idl (σ l) ∧
        e_label (fst (conjideals σ ideals auts) l) = e_label (σ l)) ∧
  (∀ l, l ∉ ideals → fst (conjideals σ ideals auts) l = σ l) ∧
  (auts = [] → ∀ l, fst (conjideals σ ideals auts) l = σ l) ∧
  (∀ g l, last auts = Some g → l ∈ ideals →
     e_hnf (fst (conjideals σ ideals auts) l) = pari_hnf (g (e_idl (σ l)))).
Proof.
  unfold conjideals.
  assert (Hst : ∀ l, fst (conj_loop (sort_by σ ideals) auts 0 (σ, ∅)) l =
            match last auts with
            | Some g => if decide (l ∈ ideals) then image_store g σ l else σ l
            | None => σ l
            end).
  { intros l. rewrite conj_loop_store. destruct (last auts); [|done].
    destruct (decide (l ∈ ideals)) as [Hin|Hin].
    - by rewrite decide_True by (by apply elem_of_sort_by).
    - by rewrite decide_False by (by rewrite elem_of_sort_by). }
  repeat split.
  - rewrite Hst. destruct (last auts); [|done]. by case_decide.
  - rewrite Hst. destruct (last auts); [|done]. by case_decide.
  - intros l Hl. rewrite Hst. destruct (last auts); [|done].
    by rewrite decide_False.
  - intros -> l. by rewrite Hst.
  - intros g l Hg Hl. rewrite Hst, Hg. by rewrite decide_True.
Qed.

Lemma conj_record_is_Some (σ : store) (ig : nat) (I G : list loc)
    (c : gmap (string * nat) string) (L : string) :
  length I = length G →
  is_Some (conj_record σ ig I G c !! (L, ig)) ↔
  is_Some (c !! (L, ig)) ∨ L ∈ (fun l => e_label (σ l)) <$> G.
Proof.
  unfold conj_record. revert G c.
  induction I as [|a I IH]; intros [|b G] c Hlen; simpl in Hlen; try done.
  { simpl. rewrite elem_of_nil. tauto. }
  simpl. rewrite IH by lia. rewrite lookup_insert_is_Some, elem_of_cons.
  split.
  - intros [[[= <-]|[_ ?]]|?]; auto.
  - intros [?|[->|?]]; auto.
    destruct (decide ((e_label (σ b), ig) = (L, ig))) as [|Hne]; auto.
Qed.

Lemma conj_record_value (σ : store) (ig : nat) (I G : list loc)
    (c : gmap (string * nat) string) (k : string * nat) (v : string) :
  conj_record σ ig I G c !! k = Some v →
  c !! k = Some v ∨ v ∈ (fun l => e_label (σ l)) <$> I.
Proof.
  unfold conj_record. revert G c.
  induction I as [|a I IH]; intros [|b G] c; simpl; auto.
  intros Hlook. destruct (IH _ _ Hlook) as [Hc|Hin].
  - apply lookup_insert_Some in Hc as [[_ <-]|[_ Hc]]; [right; left|by left].
  - right. by right.
Qed.

Lemma conj_table_is_Some (σ : store) (ref : list loc)
    (auts : list (Ideal -> Ideal)) (ig : nat)
    (c : gmap (string * nat) string) (L : string) (i : nat) :
  is_Some (conj_table σ ref auts ig c !! (L, i)) ↔
  is_Some (c !! (L, i)) ∨
  ((ig ≤ i < ig + length auts)%nat ∧ L ∈ (fun l => e_label (σ l)) <$> ref).
Proof.
  revert ig c. induction auts as [|g auts IH]; intros ig c; simpl.
  { split; [by left|]. intros [?|[? _]]; [done|lia]. }
  rewrite IH.
  assert (Hperm : (fun l => e_label (σ l)) <$> sort_by (image_store g σ) ref
                    ≡ₚ (fun l => e_label (σ l)) <$> ref).
  { unfold sort_by. by rewrite py_sort_perm. }
  destruct (decide (i = ig)) as [->|Hne].
  - rewrite conj_record_is_Some by (unfold sort_by; by rewrite py_sort_length).
    rewrite Hperm. split.
    + intros [[?|?]|[? ?]]; auto. right. split; [lia|done]. right. split; [lia|done].
    + intros [?|[? ?]]; auto.
  - rewrite conj_record_lookup_ne by done. split.
    + intros [?|[? ?]]; auto. right. split; [lia|done].
    + intros [?|[? ?]]; auto. right. split; [lia|done].
Qed.

Lemma conj_table_value (σ : store) (ref : list loc)
    (auts : list (Ideal -> Ideal)) (ig : nat)
    (c : gmap (string * nat) string) (k : string * nat) (v : string) :
  conj_table σ ref auts ig c !! k = Some v →
  c !! k = Some v ∨ v ∈ (fun l => e_label (σ l)) <$> ref.
Proof.
  revert ig c. induction auts as [|g auts IH]; intros ig c; simpl; auto.
  intros Hlook. destruct (IH _ _ Hlook) as [Hc|?]; [|by right].
  by apply conj_record_value in Hc.
Qed.

(** X20.  The keys of the table are the pairs of a label of the argument and an
    index of the list of automorphisms, all of them and no other; and every
    value is a label of the argument. *)
Theorem conjideals_table_keys (σ : store) (ideals : list loc)
    (auts : list (Ideal -> Ideal)) (L : string) (i : nat) :
  (is_Some (snd (conjideals σ ideals auts) !! (L, i)) ↔
     (i < length auts)%nat ∧ L ∈ (fun l => e_label (σ l)) <$> ideals) ∧
  (∀ v, snd (conjideals σ ideals auts) !! (L, i) = Some v →
     v ∈ (fun l => e_label (σ l)) <$> ideals).
Proof.
  unfold conjideals. rewrite (conj_loop_table σ) by done.
  assert (Hperm : (fun l => e_label (σ l)) <$> sort_by σ ideals
                    ≡ₚ (fun l => e_label (σ l)) <$> ideals).
  { unfold sort_by. by rewrite py_sort_perm. }
  split.
  - rewrite conj_table_is_Some, lookup_empty, Hperm. split.
    + intros [[? [=]]|[? ?]]. split; [lia|done].
    + intros [? ?]. right. split; [lia|done].
  - intros v Hv. apply conj_table_value in Hv as [Hv|Hv]; [done|].
    by rewrite <- Hperm.
Qed.

End ConjugationFacts.

Section RestartFacts.

Lemma run_rank_start (norms : list Z) (p : nat) (N : Z) :
  run_start norms p N → run_rank norms p N = 1.
Proof.
  intros [Hp Hprev]. unfold run_rank. destruct p as [|p'].
  { by rewrite take_0. }
  assert (is_Some (norms !! p')) as [M HM].
  { apply lookup_lt_is_Some. apply lookup_lt_Some in Hp. lia. }
  rewrite (take_S_r _ _ _ HM), trailing_run_snoc.
  destruct (Z.eqb_spec M N) as [->|]; [done|lia].
Qed.

(** X8.  The labeller does not notice an input that is not grouped by norm: it
    returns, and the entries that open two runs of the same norm carry the
    same label, so that the labels are not pairwise distinct. *)
Theorem niceideals_restart_duplicates (strs : list string)
    (out : list Entry) (p q : nat) (N : Z) :
  niceideals strs = Ok out →
  p ≠ q →
  run_start (parsed_norm <$> strs) p N →
  run_start (parsed_norm <$> strs) q N →
  (∃ L, (e_label <$> out) !! p = Some L ∧ (e_label <$> out) !! q = Some L) ∧
  ¬ NoDup (e_label <$> out).
Proof.
  intros Hrun Hpq Hp Hq.
  assert (Hlab : ∀ r, run_start (parsed_norm <$> strs) r N →
            (e_label <$> out) !! r = Some (mk_label N (Z_str 1))).
  { intros r Hr. pose proof (run_rank_start _ _ _ Hr) as Hrank.
    destruct Hr as [Hr _]. rewrite list_lookup_fmap in Hr.
    destruct (strs !! r) as [s|] eqn:Hs; [|done]. injection Hr as Hr.
    unfold niceideals in Hrun. apply niceideals_loop_PyInt in Hrun.
    destruct (niceideals_loop_runs _ _ _ _ [] Hrun
                (or_introl (conj eq_refl eq_refl)) r s Hs) as (e & He & Hl).
    rewrite list_lookup_fmap, He. simpl. rewrite Hl, Hr. do 3 f_equal.
    exact Hrank. }
  assert (Hex : ∃ L, (e_label <$> out) !! p = Some L ∧
                     (e_label <$> out) !! q = Some L).
  { eexists. split; by apply Hlab. }
  split; [done|].
  intros Hnd. destruct Hex as (L & HLp & HLq).
  apply Hpq. by eapply NoDup_lookup.
Qed.

Lemma niceideals_loop_first_failure (l1 l2 : list string) (s : string)
    (il : pynum) (norm : Z) (out1 : list Entry) :
  niceideals_loop l1 il norm = Ok out1 →
  (∀ e, str2ideal s = Raise e →
     niceideals_loop (l1 ++ s :: l2) il norm = Raise e) ∧
  (∀ N n idl gen, str2ideal s = Ok (N, n, idl, gen) → agrees s = false →
     niceideals_loop (l1 ++ s :: l2) il norm = Raise AssertionError).
Proof.
  revert il norm out1. induction l1 as [|x l1 IH]; intros il norm out1 Hrun.
  { split.
    - intros e He. simpl. by rewrite He.
    - intros N n idl gen Hs Ha. simpl app.
      rewrite (niceideals_loop_cons _ _ _ _ _ _ _ _ Hs).
      unfold agrees in Ha. rewrite Hs in Ha. by rewrite Ha. }
  destruct (str2ideal_cases x) as [(N & n & idl & gen & Hx)|[e He]].
  2: { simpl in Hrun. by rewrite He in Hrun. }
  rewrite (niceideals_loop_cons x l1 _ _ _ _ _ _ Hx) in Hrun.
  rewrite <- app_comm_cons.
  rewrite (niceideals_loop_cons x (l1 ++ s :: l2) _ _ _ _ _ _ Hx).
  destruct ((idl_norm idl =? N) && (smallest_integer idl =? n)); [|done].
  destruct (number_str (next_ilabel N norm il)) as [k|]; [|done].
  destruct (niceideals_loop l1 _ N) as [out'|] eqn:Hrest; [|done].
  destruct (IH _ _ _ Hrest) as [IH1 IH2].
  split.
  - intros e He. by rewrite (IH1 e He).
  - intros N' n' idl' gen' Hs Ha. by rewrite (IH2 N' n' idl' gen' Hs Ha).
Qed.

(** X10.  [niceideals] stops at the first string that fails: after strings on
    which it returns, a string that does not decode makes it raise the
    exception of [str2ideal], and a string that decodes without agreeing
    with its ideal makes it raise [AssertionError], whatever follows. *)
Theorem niceideals_first_failure (l1 l2 : list string) (s : string)
    (out1 : list Entry) :
  niceideals l1 = Ok out1 →
  (∀ e, str2ideal s = Raise e → niceideals (l1 ++ s :: l2) = Raise e) ∧
  (∀ N n idl gen, str2ideal s = Ok (N, n, idl, gen) → agrees s = false →
     niceideals (l1 ++ s :: l2) = Raise AssertionError).
Proof. apply niceideals_loop_first_failure. Qed.

End RestartFacts.

Section FixedFormFacts.
Hypothesis hnf_eqb_eq : ∀ a b, hnf_eqb a b = true → a = b.
Hypothesis hnf_ltb_irrefl : ∀ a, hnf_ltb a a = false.
Hypothesis hnf_ltb_trans :
  ∀ a b c, hnf_ltb a b = true → hnf_ltb b c = true → hnf_ltb a c = true.
Hypothesis hnf_ltb_total :
  ∀ a b, hnf_ltb a b = false → hnf_ltb b a = false → a = b.

Lemma fmap_eq_inj_on {A B : Type} (f : A -> B) (l1 l2 : list A) :
  (∀ a b, a ∈ l1 → b ∈ l2 → f a = f b → a = b) →
  f <$> l1 = f <$> l2 → l1 = l2.
Proof.
  revert l2. induction l1 as [|a l1 IH]; intros [|b l2] Hinj Heq; try done.
  rewrite !fmap_cons in Heq. injection Heq as Hab Heq.
  f_equal.
  - apply Hinj; [left|left|done].
  - apply IH; [|done]. intros x y Hx Hy. apply Hinj; by right.
Qed.

(** Sorting a sorted list of entries with distinct normal forms changes
    nothing. *)
Lemma sort_by_idemp (σ : store) (L : list loc) :
  NoDup ((fun l => e_hnf (σ l)) <$> L) →
  sort_by σ (sort_by σ L) = sort_by σ L.
Proof using hnf_eqb_eq hnf_ltb_irrefl hnf_ltb_trans hnf_ltb_total.
  intros Hnd.
  assert (Hnd' : NoDup ((fun l => e_hnf (σ l)) <$> sort_by σ L)).
  { unfold sort_by. by rewrite py_sort_perm. }
  apply (fmap_eq_inj_on (fun l => e_hnf (σ l))).
  - intros a b Ha%elem_of_sort_by%elem_of_sort_by Hb%elem_of_sort_by.
    by apply (NoDup_fmap_inj_on (fun l => e_hnf (σ l)) L).
  - rewrite (sort_by_keys hnf_eqb_eq hnf_ltb_irrefl) by done.
    rewrite (sort_by_keys hnf_eqb_eq hnf_ltb_irrefl) by done.
    by apply py_sort_idemp.
Qed.

(** X21.  An automorphism under which every ideal of the argument keeps the
    normal form recorded with it maps every label to itself.  Such is the
    identity on entries that carry the normal form of their own ideal, at
    whatever position of the list of automorphisms it stands. *)
Theorem conjideals_fixed_forms (σ : store) (ideals : list loc)
    (auts : list (Ideal -> Ideal)) (i : nat) (g : Ideal -> Ideal) :
  NoDup ((fun l => e_hnf (σ l)) <$> ideals) →
  NoDup ((fun l => e_label (σ l)) <$> ideals) →
  auts !! i = Some g →
  (∀ l, l ∈ ideals → pari_hnf (g (e_idl (σ l))) = e_hnf (σ l)) →
  ∀ l, l ∈ ideals →
    snd (conjideals σ ideals auts) !! (e_label (σ l), i)
      = Some (e_label (σ l)).
Proof using hnf_eqb_eq hnf_ltb_irrefl hnf_ltb_trans hnf_ltb_total.
  intros Hhnf Hlab Hi Hfix l Hl.
  assert (Himg : sort_by (image_store g σ) (sort_by σ ideals)
                   = sort_by σ ideals).
  { rewrite <- (sort_by_idemp σ ideals Hhnf) at 2.
    apply sort_by_ext. intros x Hx%elem_of_sort_by.
    unfold image_store, set_hnf. rewrite (Hfix x Hx). by destruct (σ x). }
  assert (l ∈ sort_by σ ideals) as Hin by (by apply elem_of_sort_by).
  apply list_elem_of_lookup_1 in Hin as [j Hj].
  apply (conjideals_pairs σ ideals auts i g j l l); [done..|].
  by rewrite Himg.
Qed.

(** X22.  The table does not depend on the order in which the argument lists its
    entries, when their normal forms are pairwise distinct. *)
Theorem conjideals_order_free (σ : store) (ideals ideals' : list loc)
    (auts : list (Ideal -> Ideal)) :
  NoDup ((fun l => e_hnf (σ l)) <$> ideals) →
  ideals ≡ₚ ideals' →
  snd (conjideals σ ideals auts) = snd (conjideals σ ideals' auts).
Proof using hnf_eqb_eq hnf_ltb_irrefl hnf_ltb_trans hnf_ltb_total.
  intros Hnd Hperm. unfold conjideals.
  rewrite !(conj_loop_table σ) by done. f_equal.
  assert (Hnd' : NoDup ((fun l => e_hnf (σ l)) <$> ideals')).
  { by rewrite <- Hperm. }
  apply (fmap_eq_inj_on (fun l => e_hnf (σ l))).
  - intros a b Ha%elem_of_sort_by Hb%elem_of_sort_by.
    rewrite <- Hperm in Hb.
    by apply (NoDup_fmap_inj_on (fun l => e_hnf (σ l)) ideals).
  - rewrite !(sort_by_keys hnf_eqb_eq hnf_ltb_irrefl) by done.
    apply py_sort_perm_eq; [done..|]. by rewrite Hperm.
Qed.

End FixedFormFacts.

End Field.

(** ** The statements at work in the two concrete fields *)

(** The three primes above 13, labelled in the order of their roots, each
    in an inner list of its own. *)
Local Notation "'store13'" :=
  (fun l : loc =>
     nth l [mkEntry (Cubic13.hnf_entry 7) 7 "13.1"%string;
            mkEntry (Cubic13.hnf_entry 8) 8 "13.2"%string;
            mkEntry (Cubic13.hnf_entry 10) 10 "13.3"%string]
         (mkEntry 0 0 EmptyString))
  (only parsing).

Local Notation "'conjideals13'" :=
  (conjideals Z.eqb Z.ltb Z.ltb Cubic13.hnf_entry store13 [0; 1; 2]%nat
              [Cubic13.sigma])
  (only parsing).


(** At position 0 the reference list holds 13.3 and the image list 13.1;
    the table sends 13.3 to 13.2, not to 13.1. *)
Lemma conjideals_entry_reversed_fails :
  sort_by Z.eqb Z.ltb Z.ltb store13 [0; 1; 2]%nat !! 0%nat = Some 2%nat ∧
  sort_by Z.eqb Z.ltb Z.ltb (image_store Cubic13.hnf_entry Cubic13.sigma store13)
          (sort_by Z.eqb Z.ltb Z.ltb store13 [0; 1; 2]%nat) !! 0%nat
    = Some 0%nat ∧
  snd conjideals13 !! (e_label (store13 2%nat), 0%nat)
    ≠ Some (e_label (store13 0%nat)).
Proof.
  split; [reflexivity|]. split; [reflexivity|].
  intros Heq. vm_compute in Heq. discriminate.
Qed.

(** The table sends 13.1, first of the image list, to 13.3, first of the
    reference list. *)
Lemma conjideals_entry_witness :
  snd conjideals13 !! (e_label (store13 0%nat), 0%nat)
    = Some (e_label (store13 2%nat)).
Proof.
  apply (conjideals_entry Z.eqb Z.ltb Z.ltb Cubic13.hnf_entry store13
           [0; 1; 2]%nat [Cubic13.sigma] 0%nat Cubic13.sigma 0%nat
           2%nat 0%nat).
  - apply (bool_decide_unpack _). vm_compute. exact I.
  - reflexivity.
  - reflexivity.
  - reflexivity.
Defined.

(** The ideals of norm at most 7 of [Q(a)], [a^2 = 2], are labelled 1.1,
    2.1, 4.1, 7.1 and 7.2. *)
Lemma labels_by_rank_witness :
  ∃ out,
    niceideals Zsqrt2.parse_Z Zsqrt2.parse_elt Zsqrt2.mk_ideal Zsqrt2.norm
               Zsqrt2.smallest_integer Zsqrt2.hnf_of Zsqrt2.ideals7 = Ok out ∧
    e_label <$> out = ["1.1"; "2.1"; "4.1"; "7.1"; "7.2"]%string ∧
    NoDup (e_label <$> out).
Proof.
  destruct (labels_by_rank Zsqrt2.parse_Z Zsqrt2.parse_elt Zsqrt2.mk_ideal
              Zsqrt2.norm Zsqrt2.smallest_integer Zsqrt2.hnf_of Zsqrt2.ideals7)
    as (out & Hout & _ & _ & _ & Hnd).
  - reflexivity.
  - intros _ Heq. vm_compute in Heq. discriminate Heq.
  - change (StronglySorted Z.le [1; 2; 4; 7; 7]).
    repeat (constructor; [|repeat (constructor; [lia|]); constructor]).
    constructor.
  - exists out. split; [exact Hout|]. split; [|exact Hnd].
    vm_compute in Hout. injection Hout as <-. reflexivity.
Defined.

(** The prime 7.2 is found under the label that it is given. *)
Lemma ideal_of_ideal_label_witness :
  ∃ self,
    init ascii_isalpha Zsqrt2.parse_Z Zsqrt2.parse_elt Zsqrt2.mk_ideal Zsqrt2.norm
         Zsqrt2.smallest_integer Zsqrt2.ideals7 Zsqrt2.primes7 = Ok self ∧
    ∃ L, ideal_label self (7, 4, 1) = Ok (Some L) ∧
         ideal self L = Ok (Some (7, 4, 1)).
Proof.
  eexists. split; [reflexivity|].
  apply (ideal_of_ideal_label ascii_isalpha Zsqrt2.parse_Z Zsqrt2.parse_elt Zsqrt2.mk_ideal
           Zsqrt2.norm Zsqrt2.smallest_integer Zsqrt2.hnf_of
           Zsqrt2.ideals7 Zsqrt2.primes7).
  - reflexivity.
  - change (StronglySorted Z.le [1; 2; 4; 7; 7]).
    repeat (constructor; [|repeat (constructor; [lia|]); constructor]).
    constructor.
  - apply (bool_decide_unpack _). vm_compute. exact I.
Defined.

(** On a list that is not sorted by norm the label 7.1 is issued twice.
    The prime [(7, a+3)] is yielded at construction and has the label 7.1,
    under which the index finds the conjugate prime [(7, a+4)]. *)
Lemma ideal_of_ideal_label_unsorted_fails :
  ∃ self,
    init ascii_isalpha Zsqrt2.parse_Z Zsqrt2.parse_elt Zsqrt2.mk_ideal
         Zsqrt2.norm Zsqrt2.smallest_integer Zsqrt2.ideals_ungrouped
         Zsqrt2.primes7 = Ok self ∧
    (7, 3, 1) ∈ item_ideal <$>
      fst (ideals_iter Zsqrt2.parse_Z Zsqrt2.parse_elt Zsqrt2.mk_ideal
             Zsqrt2.norm Zsqrt2.smallest_integer self None) ∧
    ideal_label self (7, 3, 1) = Ok (Some "7.1"%string) ∧
    ideal self "7.1" = Ok (Some (7, 4, 1)) ∧
    ¬ ∃ L, ideal_label self (7, 3, 1) = Ok (Some L) ∧
           ideal self L = Ok (Some (7, 3, 1)).
Proof.
  eexists. split; [reflexivity|].
  split; [apply (bool_decide_unpack _); vm_compute; exact I|].
  assert (ideal_label
            (foldl init_step
               (mkHNF Zsqrt2.ideals_ungrouped Zsqrt2.primes7
                  (Some "a"%string) ∅ ∅)
               [mkItem "7.1"%string (7, 3, 1); mkItem "2.1"%string (2, 0, 1);
                mkItem "7.1"%string (7, 4, 1)])
            (7, 3, 1) = Ok (Some "7.1"%string)) as Hlab.
  { unfold ideal_label, try_getitem, dict_getitem. simpl.
    rewrite lookup_insert_ne by done. rewrite lookup_insert_ne by done.
    by rewrite lookup_insert_eq. }
  assert (ideal
            (foldl init_step
               (mkHNF Zsqrt2.ideals_ungrouped Zsqrt2.primes7
                  (Some "a"%string) ∅ ∅)
               [mkItem "7.1"%string (7, 3, 1); mkItem "2.1"%string (2, 0, 1);
                mkItem "7.1"%string (7, 4, 1)])
            "7.1" = Ok (Some (7, 4, 1))) as Hidl.
  { unfold ideal, try_getitem, dict_getitem. simpl.
    by rewrite lookup_insert_eq. }
  split; [exact Hlab|]. split; [exact Hidl|].
  intros (L & HL & HI).
  change (ideal_label
            (foldl init_step
               (mkHNF Zsqrt2.ideals_ungrouped Zsqrt2.primes7
                  (Some "a"%string) ∅ ∅)
               [mkItem "7.1"%string (7, 3, 1); mkItem "2.1"%string (2, 0, 1);
                mkItem "7.1"%string (7, 4, 1)])
            (7, 3, 1) = Ok (Some L)) in HL.
  rewrite Hlab in HL. injection HL as <-.
  change (ideal
            (foldl init_step
               (mkHNF Zsqrt2.ideals_ungrouped Zsqrt2.primes7
                  (Some "a"%string) ∅ ∅)
               [mkItem "7.1"%string (7, 3, 1); mkItem "2.1"%string (2, 0, 1);
                mkItem "7.1"%string (7, 4, 1)])
            "7.1" = Ok (Some (7, 3, 1))) in HI.
  rewrite Hidl in HI. discriminate HI.
Qed.

(** [ideals_iter(number=2)] yields the first two pairs and stops. *)
Lemma ideals_iter_limit_witness :
  ∃ self,
    init ascii_isalpha Zsqrt2.parse_Z Zsqrt2.parse_elt Zsqrt2.mk_ideal Zsqrt2.norm
         Zsqrt2.smallest_integer Zsqrt2.ideals7 Zsqrt2.primes7 = Ok self ∧
    length (fst (ideals_iter Zsqrt2.parse_Z Zsqrt2.parse_elt Zsqrt2.mk_ideal
                   Zsqrt2.norm Zsqrt2.smallest_integer self None))
      = length (ideals self) ∧
    ideals_iter Zsqrt2.parse_Z Zsqrt2.parse_elt Zsqrt2.mk_ideal Zsqrt2.norm
                Zsqrt2.smallest_integer self (Some 2)
      = (take (Z.to_nat 2)
           (fst (ideals_iter Zsqrt2.parse_Z Zsqrt2.parse_elt Zsqrt2.mk_ideal
                   Zsqrt2.norm Zsqrt2.smallest_integer self None)),
         StopIteration).
Proof.
  eexists. split; [reflexivity|].
  apply (ideals_iter_limit ascii_isalpha Zsqrt2.parse_Z Zsqrt2.parse_elt Zsqrt2.mk_ideal
           Zsqrt2.norm Zsqrt2.smallest_integer Zsqrt2.hnf_of
           Zsqrt2.ideals7 Zsqrt2.primes7).
  - reflexivity.
  - lia.
  - vm_compute. discriminate.
Defined.



(** The ideal [(3)], of norm 9, and the label 9.1 are not in the index of
    the ideals of norm at most 7. *)
Lemma lookup_miss_is_None_witness :
  ∃ self,
    init ascii_isalpha Zsqrt2.parse_Z Zsqrt2.parse_elt Zsqrt2.mk_ideal Zsqrt2.norm
         Zsqrt2.smallest_integer Zsqrt2.ideals7 Zsqrt2.primes7 = Ok self ∧
    (ideal_label self (3, 0, 3) = Ok None ∧
     prime_label self (3, 0, 3) = Ok None) ∧
    (ideal self "9.1" = Ok None ∧ prime self "9.1" = Ok None).
Proof.
  eexists. split; [reflexivity|].
  destruct (lookup_miss_is_None ascii_isalpha Zsqrt2.parse_Z Zsqrt2.parse_elt
              Zsqrt2.mk_ideal Zsqrt2.norm Zsqrt2.smallest_integer Zsqrt2.hnf_of
              Zsqrt2.ideals7 Zsqrt2.primes7 _ (3, 0, 3) "9.1" eq_refl)
    as [Hidl Hlab].
  split.
  - apply Hidl. apply (bool_decide_unpack _). vm_compute. exact I.
  - apply Hlab. apply (bool_decide_unpack _). vm_compute. exact I.
Defined.

(** The two loops give the primes of norm at most 7 the same labels. *)
Lemma niceideals_iter_same_labels_witness :
  ∃ out items,
    niceideals Zsqrt2.parse_Z Zsqrt2.parse_elt Zsqrt2.mk_ideal Zsqrt2.norm
               Zsqrt2.smallest_integer Zsqrt2.hnf_of Zsqrt2.primes7 = Ok out ∧
    primes_iter Zsqrt2.parse_Z Zsqrt2.parse_elt Zsqrt2.mk_ideal Zsqrt2.norm
                Zsqrt2.smallest_integer
                (mkHNF Zsqrt2.ideals7 Zsqrt2.primes7 (Some "a"%string) ∅ ∅) None
      = (items, StopIteration) ∧
    e_label <$> out = item_label <$> items.
Proof.
  eexists. eexists. split; [reflexivity|]. split; [reflexivity|].
  apply (niceideals_iter_same_labels Zsqrt2.parse_Z Zsqrt2.parse_elt
           Zsqrt2.mk_ideal Zsqrt2.norm Zsqrt2.smallest_integer Zsqrt2.hnf_of
           (mkHNF Zsqrt2.ideals7 Zsqrt2.primes7 (Some "a"%string) ∅ ∅) true);
    reflexivity.
Defined.

(** The two primes above 7 of [Q(a)], [a^2 = 2], as [niceideals] returns
    them, each in an inner list of its own. *)
Local Notation "'store7'" :=
  (fun l : loc =>
     nth l [mkEntry (7, 3, 1) (7, 3, 1) "7.1"%string;
            mkEntry (7, 4, 1) (7, 4, 1) "7.2"%string]
         (mkEntry (0, 0, 0) (0, 0, 0) EmptyString))
  (only parsing).

(** C7, on the code.  [conjideals] called on the two primes above 7 with
    the automorphism [a -> -a]: before the call the first inner list of the
    argument holds the normal form of its ideal; after the call it holds
    the normal form of the conjugate ideal, next to the same ideal and
    label. *)
Theorem conjideals_overwrites_input :
  niceideals Zsqrt2.parse_Z Zsqrt2.parse_elt Zsqrt2.mk_ideal Zsqrt2.norm
             Zsqrt2.smallest_integer Zsqrt2.hnf_of
             ["[7,7,a+3]"; "[7,7,a+4]"]%string
    = Ok [store7 0%nat; store7 1%nat] ∧
  store7 0%nat = mkEntry (7, 3, 1) (7, 3, 1) "7.1"%string ∧
  fst (conjideals Zsqrt2.eqb Zsqrt2.ltb Zsqrt2.ltb Zsqrt2.hnf_of store7
                  [0; 1]%nat [Zsqrt2.conj]) 0%nat
    = mkEntry (7, 4, 1) (7, 3, 1) "7.1"%string.
Proof. split; [reflexivity|]. split; reflexivity. Qed.


(** ** The further properties at work *)

(** The variable of the ideals of [Q(a)] is [a]. *)
Lemma findvar_first_witness :
  ∃ pre x post a c b,
    Zsqrt2.ideals7 = pre ++ x :: post ∧ x = a +:+ String c b ∧
    Forall (fun y => alphaless ascii_isalpha y = true) pre ∧
    alphaless ascii_isalpha a = true ∧ ascii_isalpha c = true ∧
    findvar ascii_isalpha Zsqrt2.ideals7 =
      if is_ascii c then Found (String c EmptyString) else UnicodeError.
Proof.
  apply (findvar_first ascii_isalpha Zsqrt2.ideals7).
  intros Heq. vm_compute in Heq. discriminate Heq.
Defined.

(** Spaces, the two outer characters and a fourth field play no part. *)
Lemma str2ideal_fields_witness :
  str2ideal Zsqrt2.parse_Z Zsqrt2.parse_elt Zsqrt2.mk_ideal
            "(7 , 7,a+ 3,junk)"
    = Ok (7, 7, (7, 3, 1), Zsqrt2.APlus 3).
Proof.
  etrans.
  - apply (str2ideal_fields Zsqrt2.parse_Z Zsqrt2.parse_elt Zsqrt2.mk_ideal
             "(" ")" "7 " " 7" "a+ 3" ",junk");
      [reflexivity | reflexivity | reflexivity | right; by eexists].
  - reflexivity.
Defined.

Lemma str2ideal_too_few_fields_witness :
  ∃ e, str2ideal Zsqrt2.parse_Z Zsqrt2.parse_elt Zsqrt2.mk_ideal "[7,7]"
         = Raise e ∧ (e = TypeError ∨ e = IndexError).
Proof.
  apply (str2ideal_too_few_fields Zsqrt2.parse_Z Zsqrt2.parse_elt
           Zsqrt2.mk_ideal "[7,7]").
  simpl. lia.
Defined.

Lemma niceideals_entries_witness :
  ∃ out,
    niceideals Zsqrt2.parse_Z Zsqrt2.parse_elt Zsqrt2.mk_ideal Zsqrt2.norm
               Zsqrt2.smallest_integer Zsqrt2.hnf_of Zsqrt2.ideals7 = Ok out ∧
    length out = length Zsqrt2.ideals7 ∧
    ∀ i s e, Zsqrt2.ideals7 !! i = Some s → out !! i = Some e →
      ∃ N n gen,
        str2ideal Zsqrt2.parse_Z Zsqrt2.parse_elt Zsqrt2.mk_ideal s
          = Ok (N, n, e_idl e, gen) ∧
        e_idl e = Zsqrt2.mk_ideal n gen ∧
        Zsqrt2.norm (e_idl e) = N ∧ Zsqrt2.smallest_integer (e_idl e) = n ∧
        e_hnf e = Zsqrt2.hnf_of (e_idl e).
Proof.
  eexists. split; [reflexivity|].
  apply (niceideals_entries Zsqrt2.parse_Z Zsqrt2.parse_elt Zsqrt2.mk_ideal
           Zsqrt2.norm Zsqrt2.smallest_integer Zsqrt2.hnf_of Zsqrt2.ideals7).
  reflexivity.
Defined.

(** The first two ideals keep their entries when the list grows. *)
Lemma niceideals_prefix_witness :
  ∃ out,
    niceideals Zsqrt2.parse_Z Zsqrt2.parse_elt Zsqrt2.mk_ideal Zsqrt2.norm
               Zsqrt2.smallest_integer Zsqrt2.hnf_of
               (take 2 Zsqrt2.ideals7 ++ drop 2 Zsqrt2.ideals7) = Ok out ∧
    niceideals Zsqrt2.parse_Z Zsqrt2.parse_elt Zsqrt2.mk_ideal Zsqrt2.norm
               Zsqrt2.smallest_integer Zsqrt2.hnf_of (take 2 Zsqrt2.ideals7)
      = Ok (take (length (take 2 Zsqrt2.ideals7)) out).
Proof.
  eexists. split; [reflexivity|].
  apply (niceideals_prefix Zsqrt2.parse_Z Zsqrt2.parse_elt Zsqrt2.mk_ideal
           Zsqrt2.norm Zsqrt2.smallest_integer Zsqrt2.hnf_of
           (take 2 Zsqrt2.ideals7) (drop 2 Zsqrt2.ideals7)).
  reflexivity.
Defined.

Lemma niceideals_run_rank_witness :
  ∃ out,
    niceideals Zsqrt2.parse_Z Zsqrt2.parse_elt Zsqrt2.mk_ideal Zsqrt2.norm
               Zsqrt2.smallest_integer Zsqrt2.hnf_of Zsqrt2.ideals_ungrouped
      = Ok out ∧
    ∀ i s, Zsqrt2.ideals_ungrouped !! i = Some s →
      ∃ e, out !! i = Some e ∧
           e_label e =
             mk_label
               (parsed_norm Zsqrt2.parse_Z Zsqrt2.parse_elt Zsqrt2.mk_ideal s)
               (Z_str (run_rank
                         (parsed_norm Zsqrt2.parse_Z Zsqrt2.parse_elt
                                      Zsqrt2.mk_ideal
                            <$> Zsqrt2.ideals_ungrouped) i
                         (parsed_norm Zsqrt2.parse_Z Zsqrt2.parse_elt
                                      Zsqrt2.mk_ideal s))).
Proof.
  eexists. split; [reflexivity|].
  apply (niceideals_run_rank Zsqrt2.parse_Z Zsqrt2.parse_elt Zsqrt2.mk_ideal
           Zsqrt2.norm Zsqrt2.smallest_integer Zsqrt2.hnf_of
           Zsqrt2.ideals_ungrouped).
  reflexivity.
Defined.

(** With the prime above 2 between them, the two primes above 7 are both
    labelled 7.1. *)
Lemma niceideals_restart_duplicates_witness :
  ∃ out,
    niceideals Zsqrt2.parse_Z Zsqrt2.parse_elt Zsqrt2.mk_ideal Zsqrt2.norm
               Zsqrt2.smallest_integer Zsqrt2.hnf_of Zsqrt2.ideals_ungrouped
      = Ok out ∧
    (∃ L, (e_label <$> out) !! 0%nat = Some L ∧
          (e_label <$> out) !! 2%nat = Some L) ∧
    ¬ NoDup (e_label <$> out).
Proof.
  eexists. split; [reflexivity|].
  apply (niceideals_restart_duplicates Zsqrt2.parse_Z Zsqrt2.parse_elt
           Zsqrt2.mk_ideal Zsqrt2.norm Zsqrt2.smallest_integer Zsqrt2.hnf_of
           Zsqrt2.ideals_ungrouped _ 0%nat 2%nat 7).
  - reflexivity.
  - discriminate.
  - split; [reflexivity|exact I].
  - split; [reflexivity|]. intros Heq. vm_compute in Heq. discriminate Heq.
Defined.

Lemma _iter_ideals_nonpositive_limit_witness :
  ideals_iter Zsqrt2.parse_Z Zsqrt2.parse_elt Zsqrt2.mk_ideal Zsqrt2.norm
              Zsqrt2.smallest_integer
              (mkHNF Zsqrt2.ideals7 Zsqrt2.primes7
                     (Some "a"%string) ∅ ∅) (Some 0)
  = ideals_iter Zsqrt2.parse_Z Zsqrt2.parse_elt Zsqrt2.mk_ideal Zsqrt2.norm
                Zsqrt2.smallest_integer
                (mkHNF Zsqrt2.ideals7 Zsqrt2.primes7
                       (Some "a"%string) ∅ ∅) None.
Proof.
  apply (_iter_ideals_nonpositive_limit Zsqrt2.parse_Z Zsqrt2.parse_elt
           Zsqrt2.mk_ideal Zsqrt2.norm Zsqrt2.smallest_integer
           (mkHNF Zsqrt2.ideals7 Zsqrt2.primes7 (Some "a"%string) ∅ ∅) false 0).
  lia.
Defined.

(** A limit of 4 on a list whose fifth string is corrupt: four items, and
    no failure. *)
Lemma _iter_ideals_positive_limit_witness :
  ideals_iter Zsqrt2.parse_Z Zsqrt2.parse_elt Zsqrt2.mk_ideal Zsqrt2.norm
              Zsqrt2.smallest_integer
              (mkHNF Zsqrt2.ideals7_bad Zsqrt2.primes7
                     (Some "a"%string) ∅ ∅) (Some 4)
  = (take (Z.to_nat 4)
       (fst (ideals_iter Zsqrt2.parse_Z Zsqrt2.parse_elt Zsqrt2.mk_ideal
               Zsqrt2.norm Zsqrt2.smallest_integer
               (mkHNF Zsqrt2.ideals7_bad Zsqrt2.primes7
                      (Some "a"%string) ∅ ∅) None)),
     if decide (4 ≤ Z.of_nat (length
          (fst (ideals_iter Zsqrt2.parse_Z Zsqrt2.parse_elt Zsqrt2.mk_ideal
                  Zsqrt2.norm Zsqrt2.smallest_integer
                  (mkHNF Zsqrt2.ideals7_bad Zsqrt2.primes7
                         (Some "a"%string) ∅ ∅) None))))
     then StopIteration
     else snd (ideals_iter Zsqrt2.parse_Z Zsqrt2.parse_elt Zsqrt2.mk_ideal
                 Zsqrt2.norm Zsqrt2.smallest_integer
                 (mkHNF Zsqrt2.ideals7_bad Zsqrt2.primes7
                        (Some "a"%string) ∅ ∅) None)).
Proof.
  apply (_iter_ideals_positive_limit Zsqrt2.parse_Z Zsqrt2.parse_elt
           Zsqrt2.mk_ideal Zsqrt2.norm Zsqrt2.smallest_integer
           (mkHNF Zsqrt2.ideals7_bad Zsqrt2.primes7
                  (Some "a"%string) ∅ ∅) false 4).
  lia.
Defined.

Lemma _iter_ideals_limit_lazy_witness :
  _iter_ideals Zsqrt2.parse_Z Zsqrt2.parse_elt Zsqrt2.mk_ideal Zsqrt2.norm
               Zsqrt2.smallest_integer
               (mkHNF Zsqrt2.ideals7_bad Zsqrt2.primes7
                      (Some "a"%string) ∅ ∅) false (Some 2)
  = _iter_ideals Zsqrt2.parse_Z Zsqrt2.parse_elt Zsqrt2.mk_ideal Zsqrt2.norm
                 Zsqrt2.smallest_integer
                 (mkHNF (take (Z.to_nat 2) Zsqrt2.ideals7_bad)
                        (take (Z.to_nat 2) Zsqrt2.primes7)
                        (Some "a"%string) ∅ ∅)
                 false (Some 2).
Proof.
  apply (_iter_ideals_limit_lazy Zsqrt2.parse_Z Zsqrt2.parse_elt
           Zsqrt2.mk_ideal Zsqrt2.norm Zsqrt2.smallest_integer
           Zsqrt2.ideals7_bad Zsqrt2.primes7 (Some "a"%string) ∅ ∅ false 2).
  lia.
Defined.

Lemma lookup_hit_was_yielded_witness :
  ∃ self,
    init ascii_isalpha Zsqrt2.parse_Z Zsqrt2.parse_elt Zsqrt2.mk_ideal Zsqrt2.norm
         Zsqrt2.smallest_integer Zsqrt2.ideals7 Zsqrt2.primes7 = Ok self ∧
    (ideal_label self (7, 4, 1) = Ok (Some "7.2"%string) →
       mkItem "7.2" (7, 4, 1)
         ∈ fst (ideals_iter Zsqrt2.parse_Z Zsqrt2.parse_elt Zsqrt2.mk_ideal
                  Zsqrt2.norm Zsqrt2.smallest_integer self None)) ∧
    (ideal self "7.2" = Ok (Some (7, 4, 1)) →
       mkItem "7.2" (7, 4, 1)
         ∈ fst (ideals_iter Zsqrt2.parse_Z Zsqrt2.parse_elt Zsqrt2.mk_ideal
                  Zsqrt2.norm Zsqrt2.smallest_integer self None)).
Proof.
  eexists. split; [reflexivity|].
  apply (lookup_hit_was_yielded ascii_isalpha Zsqrt2.parse_Z Zsqrt2.parse_elt
           Zsqrt2.mk_ideal Zsqrt2.norm Zsqrt2.smallest_integer Zsqrt2.hnf_of
           Zsqrt2.ideals7 Zsqrt2.primes7).
  reflexivity.
Defined.

(** A prime named twice is found under its second label. *)
Lemma lookup_returns_last_witness :
  ∃ self,
    init ascii_isalpha Zsqrt2.parse_Z Zsqrt2.parse_elt Zsqrt2.mk_ideal Zsqrt2.norm
         Zsqrt2.smallest_integer Zsqrt2.ideals_twice Zsqrt2.primes7
      = Ok self ∧
    ideal_label self (7, 3, 1) = Ok (Some "7.2"%string) ∧
    ideal self "7.2" = Ok (Some (7, 3, 1)).
Proof.
  eexists. split; [reflexivity|].
  destruct (lookup_returns_last ascii_isalpha Zsqrt2.parse_Z Zsqrt2.parse_elt
              Zsqrt2.mk_ideal Zsqrt2.norm Zsqrt2.smallest_integer
              Zsqrt2.hnf_of Zsqrt2.ideals_twice Zsqrt2.primes7 _
              [mkItem "7.1" (7, 3, 1)] [] (mkItem "7.2" (7, 3, 1))
              eq_refl eq_refl) as [H1 H2].
  split; [apply H1|apply H2]; apply not_elem_of_nil.
Defined.

Lemma ideal_label_of_ideal_witness :
  ∃ self,
    init ascii_isalpha Zsqrt2.parse_Z Zsqrt2.parse_elt Zsqrt2.mk_ideal Zsqrt2.norm
         Zsqrt2.smallest_integer Zsqrt2.ideals7 Zsqrt2.primes7 = Ok self ∧
    ∃ idl, ideal self "7.2" = Ok (Some idl) ∧
           ideal_label self idl = Ok (Some "7.2"%string).
Proof.
  eexists. split; [reflexivity|].
  apply (ideal_label_of_ideal ascii_isalpha Zsqrt2.parse_Z Zsqrt2.parse_elt
           Zsqrt2.mk_ideal Zsqrt2.norm Zsqrt2.smallest_integer Zsqrt2.hnf_of
           Zsqrt2.ideals7 Zsqrt2.primes7).
  - reflexivity.
  - apply (bool_decide_unpack _). vm_compute. exact I.
  - apply (bool_decide_unpack _). vm_compute. exact I.
Defined.

(** The identity after the automorphism of order 3: the inner lists then
    carry the normal forms of the images, and the identity still maps 13.2
    to itself. *)
Lemma conjideals_fixed_forms_witness :
  snd (conjideals Z.eqb Z.ltb Z.ltb Cubic13.hnf_entry store13 [0; 1; 2]%nat
                  [Cubic13.sigma; fun r => r])
    !! (e_label (store13 1%nat), 1%nat)
  = Some (e_label (store13 1%nat)).
Proof.
  apply (conjideals_fixed_forms Z.eqb Z.ltb Z.ltb Cubic13.hnf_entry
           (fun a b => proj1 (Z.eqb_eq a b)) Z.ltb_irrefl
           (fun a b c Hab Hbc =>
              proj2 (Z.ltb_lt a c)
                (Z.lt_trans a b c (proj1 (Z.ltb_lt a b) Hab)
                   (proj1 (Z.ltb_lt b c) Hbc)))
           (fun a b Hab Hba =>
              Z.le_antisymm a b (proj1 (Z.ltb_ge b a) Hba)
                (proj1 (Z.ltb_ge a b) Hab))
           store13 [0; 1; 2]%nat [Cubic13.sigma; fun r => r] 1%nat
           (fun r => r)).
  - apply (bool_decide_unpack _). vm_compute. exact I.
  - apply (bool_decide_unpack _). vm_compute. exact I.
  - reflexivity.
  - intros l Hl.
    repeat (apply elem_of_cons in Hl as [->|Hl]; [reflexivity|]).
    by apply elem_of_nil in Hl.
  - right. left.
Defined.

Lemma conjideals_order_free_witness :
  snd (conjideals Z.eqb Z.ltb Z.ltb Cubic13.hnf_entry store13 [0; 1; 2]%nat
                  [Cubic13.sigma])
  = snd (conjideals Z.eqb Z.ltb Z.ltb Cubic13.hnf_entry store13
                    [1; 0; 2]%nat [Cubic13.sigma]).
Proof.
  apply (conjideals_order_free Z.eqb Z.ltb Z.ltb Cubic13.hnf_entry
           (fun a b => proj1 (Z.eqb_eq a b)) Z.ltb_irrefl
           (fun a b c Hab Hbc =>
              proj2 (Z.ltb_lt a c)
                (Z.lt_trans a b c (proj1 (Z.ltb_lt a b) Hab)
                   (proj1 (Z.ltb_lt b c) Hbc)))
           (fun a b Hab Hba =>
              Z.le_antisymm a b (proj1 (Z.ltb_ge b a) Hba)
                (proj1 (Z.ltb_ge a b) Hab))
           store13 [0; 1; 2]%nat [1; 0; 2]%nat [Cubic13.sigma]).
  - apply (bool_decide_unpack _). vm_compute. exact I.
  - apply perm_swap.
Defined.

(** After four good strings, a string whose norm is misrecorded. *)
Lemma niceideals_first_failure_witness :
  (∀ e, str2ideal Zsqrt2.parse_Z Zsqrt2.parse_elt Zsqrt2.mk_ideal
                  "[8,7,a+4]" = Raise e →
        niceideals Zsqrt2.parse_Z Zsqrt2.parse_elt Zsqrt2.mk_ideal
                   Zsqrt2.norm Zsqrt2.smallest_integer Zsqrt2.hnf_of
                   (take 4 Zsqrt2.ideals7 ++ "[8,7,a+4]"%string :: [])
          = Raise e) ∧
  (∀ N n idl gen,
     str2ideal Zsqrt2.parse_Z Zsqrt2.parse_elt Zsqrt2.mk_ideal "[8,7,a+4]"
       = Ok (N, n, idl, gen) →
     agrees Zsqrt2.parse_Z Zsqrt2.parse_elt Zsqrt2.mk_ideal Zsqrt2.norm
            Zsqrt2.smallest_integer "[8,7,a+4]" = false →
     niceideals Zsqrt2.parse_Z Zsqrt2.parse_elt Zsqrt2.mk_ideal Zsqrt2.norm
                Zsqrt2.smallest_integer Zsqrt2.hnf_of
                (take 4 Zsqrt2.ideals7 ++ "[8,7,a+4]"%string :: [])
       = Raise AssertionError).
Proof.
  eapply (niceideals_first_failure Zsqrt2.parse_Z Zsqrt2.parse_elt
            Zsqrt2.mk_ideal Zsqrt2.norm Zsqrt2.smallest_integer
            Zsqrt2.hnf_of (take 4 Zsqrt2.ideals7) [] "[8,7,a+4]").
  reflexivity.
Defined.
